(** * Proxy forwarding and enode sharing of the Istanbul proxy package

    A shallow embedding of
    - [consensus/istanbul/proxy/forward_message.go]
      ([SendForwardMsg], [handleForwardMsg]) and
    - the proxy package's type file ([proxy], [sharedValidatorEnode],
      [valEnodesShareData] with [EncodeRLP] and [DecodeRLP]),
    together with the properties the design document states about them. *)

From Stdlib Require Import ZArith NArith List Lia String.
From Stdlib Require Import Strings.Byte DecimalString.
From stdpp Require Import base option list gmap.

Set Default Proof Using "Type".

(** ** Bytes *)

Abbreviation bytes := (list byte).

(** [byte(i)]: the conversion of an unsigned integer to a byte keeps the
    low eight bits. *)
Definition b8 (n : N) : byte :=
  match Byte.of_N (n mod 256) with
  | Some b => b
  | None => x00
  end.

(** Bytes are compared and counted through their numbers. *)
#[global] Instance byte_eq_dec : EqDecision byte.
Proof.
  intros a b. destruct (decide (Byte.to_N a = Byte.to_N b)) as [E|E].
  - left. apply (f_equal Byte.of_N) in E.
    rewrite !Byte.of_to_N in E. by injection E.
  - right. intros ->. by apply E.
Defined.

#[global] Instance byte_countable : Countable byte.
Proof.
  refine (inj_countable' Byte.to_N b8 _).
  intros b. unfold b8. pose proof (Byte.to_N_bounded b).
  rewrite N.mod_small by lia. by rewrite Byte.of_to_N.
Defined.

(** ** Results with an error

    A call that returns [(value, error)] yields [inl err] or [inr value];
    [do x <~ m; k] returns the error of [m] at once. *)

Definition dbind {E A B} (m : E + A) (k : A → E + B) : E + B :=
  match m with
  | inl e => inl e
  | inr a => k a
  end.

Notation "'do' p <~ m ; k" := (dbind m (fun p => k))
  (at level 10, p pattern, m at level 100, k at level 200).

(** ** The structured binary codec (package [rlp]) *)

Module rlp.

(** Modelled from the spec: the "structured binary codec" of the host
    protocol (package [rlp]), whose sources are not part of the listing.
    It is length-prefixed and self-describing: a value is a single byte
    below 0x80, a byte string (tags 0x80..0xBF) or a list (tags
    0xC0..0xFF); sizes of 56 and more are written big-endian after the
    tag, in the least number of bytes.  Sizes are [uint64]. *)

Inductive Error : Type :=
  | EOL                 (* end of the input or of the enclosing list *)
  | ErrUnexpectedEOF
  | ErrExpectedString
  | ErrExpectedList
  | ErrCanonInt
  | ErrCanonSize
  | ErrElemTooLarge
  | ErrUintOverflow
  | ErrTooFewElements
  | ErrTooManyElements
  | ErrStringTooLong
  | ErrStringTooShort.

(** *** Encoding *)

(** The [k] low-order bytes of [i], most significant first. *)
Fixpoint be_bytes (k : nat) (i : N) : bytes :=
  match k with
  | O => []
  | S k' => be_bytes k' (i / 256) ++ [b8 i]
  end.

(** [putint]: the big-endian bytes of a [uint64] without leading zeros
    (one byte for zero). *)
Definition intsize (i : N) : nat :=
  if (i <? 2 ^ 8)%N then 1
  else if (i <? 2 ^ 16)%N then 2
  else if (i <? 2 ^ 24)%N then 3
  else if (i <? 2 ^ 32)%N then 4
  else if (i <? 2 ^ 40)%N then 5
  else if (i <? 2 ^ 48)%N then 6
  else if (i <? 2 ^ 56)%N then 7
  else 8.

Definition putint (i : N) : bytes := be_bytes (intsize i) i.

(** [puthead]: the tag of a string or list of [size] bytes. *)
Definition puthead (smalltag largetag : N) (size : N) : bytes :=
  if (size <? 56)%N then [b8 (smalltag + size)]
  else
    let sizebytes := putint size in
    b8 (largetag + N.of_nat (length sizebytes)) :: sizebytes.

Definition encodeStringHeader (size : N) : bytes := puthead 0x80 0xB7 size.
Definition encodeListHeader (size : N) : bytes := puthead 0xC0 0xF7 size.

(** [writeBytes]: byte slices, byte arrays and strings. *)
Definition writeBytes (b : bytes) : bytes :=
  match b with
  | [b0] =>
      if (Byte.to_N b0 <=? 0x7F)%N then [b0]
      else encodeStringHeader 1 ++ b
  | _ => encodeStringHeader (N.of_nat (length b)) ++ b
  end.

Definition writeString (s : string) : bytes :=
  writeBytes (list_byte_of_string s).

(** [writeUint]. *)
Definition writeUint (i : N) : bytes :=
  if (i =? 0)%N then [b8 0x80]
  else if (i <? 128)%N then [b8 i]
  else
    let s := putint i in
    b8 (0x80 + N.of_nat (length s)) :: s.

(** A list (a slice, a struct) is the header followed by the encodings of
    its elements. *)
Definition writeList (content : bytes) : bytes :=
  encodeListHeader (N.of_nat (length content)) ++ content.

(** *** Decoding *)

(** A stream is the input that remains; the content of a list is decoded
    as a stream of its own. *)
Definition Stream := bytes.
Definition Dec (A : Type) : Type := Stream → Error + (A * Stream).

(** The value of big-endian bytes. *)
Definition be_value (bs : bytes) : N :=
  fold_left (fun acc b => (acc * 256 + Byte.to_N b)%N) bs 0%N.

(** [readUint]: a big-endian integer of [size] bytes, at most eight; a
    leading zero byte is not canonical. *)
Definition readUint (size : nat) : Dec N := fun s =>
  match size with
  | 0 => inr (0%N, s)
  | 1 =>
      match s with
      | [] => inl ErrUnexpectedEOF
      | b :: s' => inr (Byte.to_N b, s')
      end
  | _ =>
      if (length s <? size)%nat then inl ErrUnexpectedEOF
      else
        let buf := take size s in
        match buf with
        | [] => inl ErrUnexpectedEOF
        | b0 :: _ =>
            if (Byte.to_N b0 =? 0)%N then inl ErrCanonSize
            else inr (be_value buf, drop size s)
        end
  end.

Inductive Kind : Type :=
  | Byte (byteval : byte)
  | String (size : N)
  | List (size : N).

(** [readKind]: the tag and the size of the next value. *)
Definition readKind : Dec Kind := fun s =>
  match s with
  | [] => inl EOL
  | b :: s' =>
      let t := Byte.to_N b in
      if (t <? 0x80)%N then inr (Byte b, s')
      else if (t <? 0xB8)%N then inr (String (t - 0x80), s')
      else if (t <? 0xC0)%N then
        do (size, s'') <~ readUint (N.to_nat (t - 0xB7)) s';
        if (size <? 56)%N then inl ErrCanonSize else inr (String size, s'')
      else if (t <? 0xF8)%N then inr (List (t - 0xC0), s')
      else
        do (size, s'') <~ readUint (N.to_nat (t - 0xF7)) s';
        if (size <? 56)%N then inl ErrCanonSize else inr (List size, s'')
  end.

(** [Stream.Kind]: a value may not be larger than what remains of the
    input (of the enclosing list). *)
Definition streamKind : Dec Kind := fun s =>
  do (k, s') <~ readKind s;
  match k with
  | Byte _ => inr (k, s')
  | String size | List size =>
      if (N.of_nat (length s') <? size)%N then inl ErrElemTooLarge
      else inr (k, s')
  end.

(** [Stream.Bytes]. *)
Definition streamBytes : Dec bytes := fun s =>
  do (k, s') <~ streamKind s;
  match k with
  | Byte v => inr ([v], s')
  | String size =>
      let b := take (N.to_nat size) s' in
      match b with
      | [b0] =>
          if (Byte.to_N b0 <? 128)%N then inl ErrCanonSize
          else inr (b, drop (N.to_nat size) s')
      | _ => inr (b, drop (N.to_nat size) s')
      end
  | List _ => inl ErrExpectedString
  end.

Definition decodeString : Dec string := fun s =>
  do (b, s') <~ streamBytes s;
  inr (string_of_list_byte b, s').

(** [decodeByteArray] for an array of [vlen] bytes. *)
Definition decodeByteArray (vlen : nat) : Dec bytes := fun s =>
  do (k, s') <~ streamKind s;
  match k with
  | Byte v =>
      if (vlen =? 0)%nat then inl ErrStringTooLong
      else if (1 <? vlen)%nat then inl ErrStringTooShort
      else inr ([v], s')
  | String size =>
      if (N.of_nat vlen <? size)%N then inl ErrStringTooLong
      else if (size <? N.of_nat vlen)%N then inl ErrStringTooShort
      else
        let slice := take vlen s' in
        match slice with
        | [b0] =>
            if (Byte.to_N b0 <? 128)%N then inl ErrCanonSize
            else inr (slice, drop vlen s')
        | _ => inr (slice, drop vlen s')
        end
  | List _ => inl ErrExpectedString
  end.

(** [Stream.uint] for an unsigned integer of [maxbits] bits. *)
Definition streamUint (maxbits : N) : Dec N := fun s =>
  do (k, s') <~ streamKind s;
  match k with
  | Byte v =>
      if (Byte.to_N v =? 0)%N then inl ErrCanonInt else inr (Byte.to_N v, s')
  | String size =>
      if (maxbits / 8 <? size)%N then inl ErrUintOverflow
      else
        match readUint (N.to_nat size) s' with
        | inl ErrCanonSize => inl ErrCanonInt
        | inl e => inl e
        | inr (v, s'') =>
            if ((0 <? size) && (v <? 128))%N then inl ErrCanonSize
            else inr (v, s'')
        end
  | List _ => inl ErrExpectedString
  end.

(** [Stream.List]: enters a list; the result is the stream of the list's
    content and the stream after the list. *)
Definition streamList : Dec Stream := fun s =>
  do (k, s') <~ streamKind s;
  match k with
  | List size => inr (take (N.to_nat size) s', drop (N.to_nat size) s')
  | _ => inl ErrExpectedList
  end.

(** [Stream.ListEnd]: the content of the list must be used up. *)
Definition streamListEnd (content : Stream) : Error + unit :=
  match content with
  | [] => inr tt
  | _ => inl ErrTooManyElements
  end.

(** A struct field that finds the list at its end is missing. *)
Definition field {A} (d : Dec A) : Dec A := fun s =>
  match d s with
  | inl EOL => inl ErrTooFewElements
  | r => r
  end.

(** [decodeSliceElems]: elements until the end of the list.  Every
    element takes at least one byte, so the length of the content bounds
    the number of rounds. *)
Fixpoint decodeSliceElems {A} (elemdec : Dec A) (rounds : nat)
    (content : Stream) : Error + list A :=
  match content with
  | [] => inr []
  | _ =>
      match rounds with
      | O => inl ErrUnexpectedEOF
      | S rounds' =>
          do (x, content') <~ elemdec content;
          do xs <~ decodeSliceElems elemdec rounds' content';
          inr (x :: xs)
      end
  end.

(** [decodeListSlice]. *)
Definition decodeListSlice {A} (elemdec : Dec A) : Dec (list A) := fun s =>
  do (content, after) <~ streamList s;
  do xs <~ decodeSliceElems elemdec (length content) content;
  inr (xs, after).

End rlp.

(** ** Types of the collaborating packages *)

Module common.
(** [common.Address] is an array of [AddressLength] bytes. *)
Abbreviation Address := (list byte).
Definition AddressLength : nat := 20.
End common.

Module enode.
(** [enode.ID] is an array of 32 bytes; of [enode.Node] the code reads
    the ID only. *)
Abbreviation ID := (list byte).
Record Node : Type := { ID_of : ID }.

#[global] Instance Node_eq_dec : EqDecision Node.
Proof. solve_decision. Defined.
#[global] Instance Node_countable : Countable Node :=
  inj_countable' ID_of (fun i => {| ID_of := i |}) (fun '(Build_Node _) => eq_refl).
End enode.

Module consensus.
(** [consensus.Peer] is an interface; a peer is the connection object
    [conn] behind the interface value (two interface values are equal
    when they hold the same object) and [Node()] is its node. *)
Record Peer : Type := { conn : positive; Node : enode.Node }.

#[global] Instance Peer_eq_dec : EqDecision Peer.
Proof. solve_decision. Defined.
#[global] Instance Peer_countable : Countable Peer :=
  inj_countable' (fun p => (conn p, Node p))
    (fun '(c, n) => {| conn := c; Node := n |}) (fun '(Build_Peer _ _) => eq_refl).
End consensus.

Module istanbul.
(** [istanbul.ForwardMessage] and [istanbul.Message], with the fields
    that the composite literals of [SendForwardMsg] name. *)
Module ForwardMessage.
Record t : Type := {
  Code : N;                              (* uint64 *)
  DestAddresses : list common.Address;
  Msg : bytes;
}.
End ForwardMessage.
Module Message.
Record t : Type := {
  Code : N;                              (* uint64 *)
  Msg : bytes;
  Address : common.Address;
}.
End Message.
End istanbul.

(** ** The proxy object *)

Record proxy : Type := {
  node : enode.Node;                 (* internal network interface *)
  externalNode : enode.Node;         (* external network interface *)
  peer : option consensus.Peer;      (* [None]: not connected to the proxy *)
  disconnectTS : Z;                  (* time.Time, as Unix seconds *)
}.

Definition proxy_ID (p : proxy) : enode.ID := enode.ID_of (node p).
Definition ExternalNode (p : proxy) : enode.Node := externalNode p.
Definition IsPeered (p : proxy) : bool :=
  match peer p with
  | Some _ => true
  | None => false
  end.

(** ** The validator enode share message *)

(** [uint] has 64 bits on the platforms the node is built for. *)
Definition UintSize : N := 64.

Record sharedValidatorEnode : Type := {
  Address : common.Address;
  EnodeURL : string;
  Version : N;                       (* uint *)
}.

(** [ValEnodes] is a slice; the code never compares it with nil, and a
    nil slice and an empty one are both the empty list here. *)
Record valEnodesShareData : Type := {
  ValEnodes : list sharedValidatorEnode;
}.

(** What the generic encoder writes for a [sharedValidatorEnode]: a
    struct is the list of its fields in the order of declaration. *)
Definition encode_sharedValidatorEnode (sve : sharedValidatorEnode) : bytes :=
  rlp.writeList
    (rlp.writeBytes (Address sve) ++
     rlp.writeString (EnodeURL sve) ++
     rlp.writeUint (Version sve)).

Definition encode_ValEnodes (l : list sharedValidatorEnode) : bytes :=
  rlp.writeList (concat (map encode_sharedValidatorEnode l)).

(** [EncodeRLP]: [rlp.Encode(w, []interface{}{sd.ValEnodes})]; the result
    is what is written to [w]. *)
Definition EncodeRLP (sd : valEnodesShareData) : bytes :=
  rlp.writeList (encode_ValEnodes (ValEnodes sd)).

(** What the generic decoder does for a [sharedValidatorEnode]. *)
Definition decode_sharedValidatorEnode : rlp.Dec sharedValidatorEnode := fun s =>
  do (content, after) <~ rlp.streamList s;
  do (address, c1) <~ rlp.field (rlp.decodeByteArray common.AddressLength) content;
  do (enodeURL, c2) <~ rlp.field rlp.decodeString c1;
  do (version, c3) <~ rlp.field (rlp.streamUint UintSize) c2;
  do _ <~ rlp.streamListEnd c3;
  inr ({| Address := address; EnodeURL := enodeURL; Version := version |}, after).

(** [DecodeRLP]: [s.Decode(&msg)] for the anonymous struct with the one
    field [ValEnodes], then [sd.ValEnodes = msg.ValEnodes].  On an error
    the receiver [sd] is left as it was. *)
Definition DecodeRLP (sd : valEnodesShareData) (s : rlp.Stream)
    : rlp.Error + (valEnodesShareData * rlp.Stream) :=
  do (content, after) <~ rlp.streamList s;
  do (msg_ValEnodes, c1) <~
    rlp.field (rlp.decodeListSlice decode_sharedValidatorEnode) content;
  do _ <~ rlp.streamListEnd c1;
  inr ({| ValEnodes := msg_ValEnodes |}, after).

(** The values that the fields of a [sharedValidatorEnode] can hold: the
    address is an array of [AddressLength] bytes and the version is a
    [uint]. *)
Definition wf_sharedValidatorEnode (sve : sharedValidatorEnode) : Prop :=
  length (Address sve) = common.AddressLength ∧
  (Version sve < 2 ^ UintSize)%N.

(** ** Calls to collaborators

    The engines reach the transport, the proxy handler and the enode
    certificate handling through interfaces.  A call to one of them is a
    transition of the engine that also appends an event with the
    arguments and the outcome of the call to the trace. *)

Section Effects.
Context {error : Type}.

Inductive Event : Type :=
  | GetValidatorAssignmentsCall (validators : list common.Address)
  | UnicastCall (to : consensus.Peer) (payload : bytes) (ethMsgCode : N)
      (outcome : option error)
  | MulticastCall (destAddresses : list common.Address) (payload : bytes)
      (ethMsgCode : N) (sendToSelf : bool) (outcome : option error)
  | HandleEnodeCertificateCall (msg : bytes) (outcome : option error).

Record World (St : Type) : Type := { engine : St; trace : list Event }.
#[global] Arguments engine {St} _.
#[global] Arguments trace {St} _.
#[global] Arguments Build_World {St} _ _.

Definition M (St A : Type) : Type := World St → A * World St.

Definition ret {St A} (a : A) : M St A := fun w => (a, w).

Definition bind {St A B} (m : M St A) (k : A → M St B) : M St B :=
  fun w => let (a, w') := m w in k a w'.

(** A call [f] on the engine, logged as [ev] of its result. *)
Definition call {St A} (f : St → A * St) (ev : A → Event) : M St A :=
  fun w =>
    let (a, st') := f (engine w) in
    (a, {| engine := st'; trace := trace w ++ [ev a] |}).

(** The error of the first transmission of a trace that failed. *)
Fixpoint firstFailure (evs : list Event) : option error :=
  match evs with
  | [] => None
  | UnicastCall _ _ _ (Some err) :: _ => Some err
  | _ :: evs' => firstFailure evs'
  end.

Definition is_Unicast (ev : Event) : bool :=
  match ev with
  | UnicastCall _ _ _ _ => true
  | _ => false
  end.

Definition is_Multicast (ev : Event) : bool :=
  match ev with
  | MulticastCall _ _ _ _ _ => true
  | _ => false
  end.

Definition is_GetValidatorAssignments (ev : Event) : bool :=
  match ev with
  | GetValidatorAssignmentsCall _ => true
  | _ => false
  end.
End Effects.

#[global] Arguments Event : clear implicits.
#[global] Arguments World : clear implicits.
#[global] Arguments M : clear implicits.

Notation "'run' x <~ m ; k" := (bind m (fun x => k))
  (at level 10, x name, m at level 100, k at level 200).

(** ** forward_message.go, sending side: the proxied validator engine *)

Section ProxiedValidatorEngine.
Context {error : Type}.
(** The states of the proxy handler [pv.ph] and of [pv.backend]. *)
Context {ProxyHandler Backend : Type}.

Record proxiedValidatorEngine : Type := {
  ph : ProxyHandler;
  backend : Backend;
}.

(** [istanbul.FwdMsg]. *)
Variable FwdMsg : N.

(** [pv.ph.GetValidatorAssignments]: the proxy assigned to each of the
    addresses, a nil pointer ([None]) for an address without one. *)
Variable GetValidatorAssignments :
  list common.Address → ProxyHandler →
  (error + gmap common.Address (option proxy)) * ProxyHandler.

(** [pv.backend.Address] and [pv.backend.Unicast].  [SendForwardMsg]
    calls [Unicast] as a statement: the outcome of the transmission
    does not come back to it. *)
Variable backend_Address : Backend → common.Address.
Variable backend_Unicast :
  consensus.Peer → bytes → N → Backend → option error * Backend.

(** [rlp.EncodeToBytes] at [*istanbul.ForwardMessage], and
    [istanbul.Message.Payload]. *)
Variable EncodeToBytes : istanbul.ForwardMessage.t → error + bytes.
Variable Payload : istanbul.Message.t → error + bytes.

(** [for k, v := range m] visits the entries of a map in an order that
    the language leaves open. *)
Variable rangeAssignments :
  gmap common.Address (option proxy) → list (common.Address * option proxy).
Variable rangeProxies :
  gmap consensus.Peer (list common.Address) →
  list (consensus.Peer * list common.Address).

Definition range_ok {K V} `{Countable K}
    (range : gmap K V → list (K * V)) : Prop :=
  ∀ m, range m ≡ₚ map_to_list m.

Definition pvM := M error proxiedValidatorEngine.

Definition ph_GetValidatorAssignments (validators : list common.Address)
    : pvM (error + gmap common.Address (option proxy)) :=
  call
    (fun pv =>
       let (r, ph') := GetValidatorAssignments validators (ph pv) in
       (r, {| ph := ph'; backend := backend pv |}))
    (fun _ => GetValidatorAssignmentsCall validators).

Definition Unicast (to : consensus.Peer) (payload : bytes) (ethMsgCode : N)
    : pvM (option error) :=
  call
    (fun pv =>
       let (r, b') := backend_Unicast to payload ethMsgCode (backend pv) in
       (r, {| ph := ph pv; backend := b' |}))
    (fun r => UnicastCall to payload ethMsgCode r).

(** Lines 43-51, one round: the address joins the addresses of the peer
    of its proxy.  A map yields nil for a key it does not have, and
    appending to nil or to the empty slice of line 46 is the same. *)
Definition assignStep
    (proxyToAddressesMap : gmap consensus.Peer (list common.Address))
    (entry : common.Address * option proxy)
    : gmap consensus.Peer (list common.Address) :=
  let (valAddress, proxy) := entry in
  match proxy with
  | Some proxy =>
      match peer proxy with
      | Some proxy_peer =>
          <[proxy_peer :=
              default [] (proxyToAddressesMap !! proxy_peer) ++ [valAddress]]>
            proxyToAddressesMap
      | None => proxyToAddressesMap
      end
  | None => proxyToAddressesMap
  end.

(** Lines 58-60, one round. *)
Definition peerStep
    (proxyToAddressesMap : gmap consensus.Peer (list common.Address))
    (proxyPeer : consensus.Peer)
    : gmap consensus.Peer (list common.Address) :=
  <[proxyPeer := []]> proxyToAddressesMap.

(** Lines 67-71: the payload for one proxy; [None] is a nil slice. *)
Definition msgToForward (payload : option bytes)
    (proxySpecificPayloads : gmap enode.ID (option bytes))
    (proxyPeer : consensus.Peer) : option bytes :=
  match proxySpecificPayloads !! enode.ID_of (consensus.Node proxyPeer) with
  | Some proxySpecificPayload => proxySpecificPayload
  | None => payload
  end.

(** Lines 64-96: the loop over the proxies, and the final [return nil]. *)
Fixpoint sendLoop (ethMsgCode : N) (payload : option bytes)
    (proxySpecificPayloads : gmap enode.ID (option bytes))
    (entries : list (consensus.Peer * list common.Address))
    : pvM (option error) :=
  match entries with
  | [] => ret None
  | (proxyPeer, valAddresses) :: rest =>
      match msgToForward payload proxySpecificPayloads proxyPeer with
      | Some msg =>
          let fwdMessage :=
            {| istanbul.ForwardMessage.Code := ethMsgCode;
               istanbul.ForwardMessage.DestAddresses := valAddresses;
               istanbul.ForwardMessage.Msg := msg |} in
          match EncodeToBytes fwdMessage with
          | inl err => ret (Some err)
          | inr fwdMsgBytes =>
              fun w =>
                let msg :=
                  {| istanbul.Message.Code := FwdMsg;
                     istanbul.Message.Msg := fwdMsgBytes;
                     istanbul.Message.Address :=
                       backend_Address (backend (engine w)) |} in
                match Payload msg with
                | inl err => ret (Some err) w
                | inr fwdMsgPayload =>
                    (run _ <~ Unicast proxyPeer fwdMsgPayload FwdMsg;
                     sendLoop ethMsgCode payload proxySpecificPayloads rest) w
                end
          end
      | None => sendLoop ethMsgCode payload proxySpecificPayloads rest
      end
  end.

(** [SendForwardMsg]; a nil [proxyPeers] is [None]. *)
Definition SendForwardMsg (proxyPeers : option (list consensus.Peer))
    (validatorAddresses : list common.Address) (ethMsgCode : N)
    (payload : option bytes)
    (proxySpecificPayloads : gmap enode.ID (option bytes))
    : pvM (option error) :=
  match proxyPeers with
  | None =>
      run r <~ ph_GetValidatorAssignments validatorAddresses;
      match r with
      | inl err => ret (Some err)
      | inr valAssignments =>
          let proxyToAddressesMap :=
            foldl assignStep ∅ (rangeAssignments valAssignments) in
          if decide (size proxyToAddressesMap = 0) then ret None
          else
            sendLoop ethMsgCode payload proxySpecificPayloads
              (rangeProxies proxyToAddressesMap)
      end
  | Some proxyPeers =>
      let proxyToAddressesMap := foldl peerStep ∅ proxyPeers in
      sendLoop ethMsgCode payload proxySpecificPayloads
        (rangeProxies proxyToAddressesMap)
  end.

(** The event [ev] is the transmission to [proxyPeer] of the forward
    message [fwdMessage], wrapped as lines 79-92 wrap it. *)
Definition carries (ev : Event error) (proxyPeer : consensus.Peer)
    (fwdMessage : istanbul.ForwardMessage.t) : Prop :=
  ∃ fwdMsgBytes address fwdMsgPayload outcome,
    EncodeToBytes fwdMessage = inr fwdMsgBytes ∧
    Payload {| istanbul.Message.Code := FwdMsg;
               istanbul.Message.Msg := fwdMsgBytes;
               istanbul.Message.Address := address |} = inr fwdMsgPayload ∧
    ev = UnicastCall proxyPeer fwdMsgPayload FwdMsg outcome.

(** The event is the transmission for one of the [entries]. *)
Definition sentFor (ethMsgCode : N) (payload : option bytes)
    (proxySpecificPayloads : gmap enode.ID (option bytes))
    (entries : list (consensus.Peer * list common.Address))
    (ev : Event error) : Prop :=
  ∃ proxyPeer valAddresses msg,
    (proxyPeer, valAddresses) ∈ entries ∧
    msgToForward payload proxySpecificPayloads proxyPeer = Some msg ∧
    carries ev proxyPeer
      {| istanbul.ForwardMessage.Code := ethMsgCode;
         istanbul.ForwardMessage.DestAddresses := valAddresses;
         istanbul.ForwardMessage.Msg := msg |}.

(** The address resolves to a proxy that is connected as [proxyPeer]. *)
Definition resolvesTo (valAssignments : gmap common.Address (option proxy))
    (valAddress : common.Address) (proxyPeer : consensus.Peer) : Prop :=
  ∃ proxy, valAssignments !! valAddress = Some (Some proxy) ∧
           peer proxy = Some proxyPeer.

(** The map of line 63: the proxies that the loop visits.  There is
    none when the assignments cannot be retrieved. *)
Definition relays (proxyPeers : option (list consensus.Peer))
    (validatorAddresses : list common.Address)
    (w : World error proxiedValidatorEngine)
    : option (gmap consensus.Peer (list common.Address)) :=
  match proxyPeers with
  | Some proxyPeers => Some (foldl peerStep ∅ proxyPeers)
  | None =>
      match GetValidatorAssignments validatorAddresses (ph (engine w)) with
      | (inr valAssignments, _) =>
          Some (foldl assignStep ∅ (rangeAssignments valAssignments))
      | (inl _, _) => None
      end
  end.
End ProxiedValidatorEngine.

#[global] Arguments proxiedValidatorEngine : clear implicits.

(** ** forward_message.go, receiving side: the proxy engine *)

Section ProxyEngine.
Context {error : Type}.
Context {Backend : Type}.

Record proxyEngine : Type := {
  proxiedValidator : option consensus.Peer;   (* nil: none registered *)
  p_backend : Backend;
}.

(** [istanbul.EnodeCertificateMsg]. *)
Variable EnodeCertificateMsg : N.

(** [istanbul.Message.FromPayload] without a validation function, and
    [istanbul.Message.Decode] into a [*istanbul.ForwardMessage]. *)
Variable FromPayload : bytes → error + istanbul.Message.t.
Variable Decode : istanbul.Message.t → error + istanbul.ForwardMessage.t.

(** [p.handleEnodeCertificateFromFwdMsg], a method of the engine. *)
Variable handleEnodeCertificateFromFwdMsg_impl :
  bytes → proxyEngine → option error * proxyEngine.

(** [p.backend.Multicast]. *)
Variable backend_Multicast :
  list common.Address → bytes → N → bool → Backend → option error * Backend.

Definition pM := M error proxyEngine.

Definition handleEnodeCertificateFromFwdMsg (msg : bytes) : pM (option error) :=
  call (handleEnodeCertificateFromFwdMsg_impl msg)
    (fun r => HandleEnodeCertificateCall msg r).

Definition Multicast (destAddresses : list common.Address) (payload : bytes)
    (ethMsgCode : N) (sendToSelf : bool) : pM (option error) :=
  call
    (fun p =>
       let (r, b') :=
         backend_Multicast destAddresses payload ethMsgCode sendToSelf
           (p_backend p) in
       (r, {| proxiedValidator := proxiedValidator p; p_backend := b' |}))
    (fun r => MulticastCall destAddresses payload ethMsgCode sendToSelf r).

(** Line 105: no proxied validator is registered, or the node ID of the
    peer is not that of the proxied validator. *)
Definition notFromProxiedValidator (p : proxyEngine) (peer : consensus.Peer)
    : bool :=
  match proxiedValidator p with
  | None => true
  | Some pv =>
      bool_decide
        (enode.ID_of (consensus.Node pv) ≠ enode.ID_of (consensus.Node peer))
  end.

(** Lines 132-138: the additional handling of an enode certificate. *)
Definition enodeCertificateStep (fwdMsg : istanbul.ForwardMessage.t)
    : pM (option error) :=
  if (istanbul.ForwardMessage.Code fwdMsg =? EnodeCertificateMsg)%N
  then handleEnodeCertificateFromFwdMsg (istanbul.ForwardMessage.Msg fwdMsg)
  else ret None.

(** [handleForwardMsg]: the results are [handled] and the error. *)
Definition handleForwardMsg (peer : consensus.Peer) (payload : bytes)
    : pM (bool * option error) :=
  fun w =>
    if notFromProxiedValidator (engine w) peer then ret (false, None) w
    else
      match FromPayload payload with
      | inl err => ret (true, Some err) w
      | inr istMsg =>
          match Decode istMsg with
          | inl err => ret (true, Some err) w
          | inr fwdMsg =>
              (run r <~ enodeCertificateStep fwdMsg;
               match r with
               | Some err => ret (true, Some err)
               | None =>
                   run r' <~ Multicast (istanbul.ForwardMessage.DestAddresses fwdMsg)
                           (istanbul.ForwardMessage.Msg fwdMsg)
                           (istanbul.ForwardMessage.Code fwdMsg) false;
                   match r' with
                   | Some err => ret (true, Some err)
                   | None => ret (true, None)
                   end
               end) w
      end
  end.

(** [peer] has the node ID of the registered proxied validator. *)
Definition isProxiedValidator (p : proxyEngine) (peer : consensus.Peer)
    : Prop :=
  ∃ pv, proxiedValidator p = Some pv ∧
        enode.ID_of (consensus.Node pv) = enode.ID_of (consensus.Node peer).

(** The payload decodes to the forward message [fwdMsg]. *)
Definition decodesTo (payload : bytes) (fwdMsg : istanbul.ForwardMessage.t)
    : Prop :=
  ∃ istMsg, FromPayload payload = inr istMsg ∧ Decode istMsg = inr fwdMsg.

(** The decoding of the payload fails with [err]. *)
Definition decodeFails (payload : bytes) (err : error) : Prop :=
  FromPayload payload = inl err ∨
  ∃ istMsg, FromPayload payload = inr istMsg ∧ Decode istMsg = inl err.
End ProxyEngine.

#[global] Arguments proxyEngine : clear implicits.

(** ** A deployment with two proxies

    The collaborators of the end-to-end scenario of the design document:
    a proxied validator with the proxies [R1] and [R2], the codec above
    for the envelopes, and transports that record what they deliver. *)

Module Scenario.
Definition error : Type := string.

Definition FwdMsg : N := 0x14.
Definition EnodeCertificateMsg : N := 0x17.

Definition A : common.Address := replicate 20 x0a.
Definition B : common.Address := replicate 20 x0b.
Definition C : common.Address := replicate 20 x0c.
Definition validator : common.Address := replicate 20 xff.

Definition R1 : consensus.Peer :=
  {| consensus.conn := 1;
     consensus.Node := {| enode.ID_of := replicate 32 x01 |} |}.
Definition R2 : consensus.Peer :=
  {| consensus.conn := 2;
     consensus.Node := {| enode.ID_of := replicate 32 x02 |} |}.
(** The proxied validator as the proxies see it, and a stranger. *)
Definition V : consensus.Peer :=
  {| consensus.conn := 3;
     consensus.Node := {| enode.ID_of := replicate 32 xff |} |}.
Definition X : consensus.Peer :=
  {| consensus.conn := 4;
     consensus.Node := {| enode.ID_of := replicate 32 x66 |} |}.

Definition proxy1 : proxy :=
  {| node := consensus.Node R1; externalNode := consensus.Node R1;
     peer := Some R1; disconnectTS := 0 |}.
Definition proxy2 : proxy :=
  {| node := consensus.Node R2; externalNode := consensus.Node R2;
     peer := Some R2; disconnectTS := 0 |}.
(** A proxy that was added and has not connected. *)
Definition proxy3 : proxy :=
  {| node := consensus.Node X; externalNode := consensus.Node X;
     peer := None; disconnectTS := 0 |}.

(** *** The codec of the envelopes *)

Definition rlp_error (e : rlp.Error) : error :=
  match e with
  | rlp.EOL => "EOF"
  | rlp.ErrUnexpectedEOF => "unexpected EOF"
  | rlp.ErrExpectedString => "rlp: expected String or Byte"
  | rlp.ErrExpectedList => "rlp: expected List"
  | rlp.ErrCanonInt => "rlp: non-canonical integer format"
  | rlp.ErrCanonSize => "rlp: non-canonical size information"
  | rlp.ErrElemTooLarge => "rlp: element is larger than containing list"
  | rlp.ErrUintOverflow => "rlp: uint overflow"
  | rlp.ErrTooFewElements => "rlp: too few elements"
  | rlp.ErrTooManyElements => "rlp: input list has too many elements"
  | rlp.ErrStringTooLong => "rlp: input string too long"
  | rlp.ErrStringTooShort => "rlp: input string too short"
  end%string.

(** [rlp.DecodeBytes]: one value, and nothing after it. *)
Definition DecodeBytes {T} (d : rlp.Dec T) (b : bytes) : error + T :=
  match d b with
  | inl e => inl (rlp_error e)
  | inr (v, []) => inr v
  | inr (_, _ :: _) => inl "rlp: input contains more than one value"%string
  end.

Definition encode_ForwardMessage (m : istanbul.ForwardMessage.t) : bytes :=
  rlp.writeList
    (rlp.writeUint (istanbul.ForwardMessage.Code m) ++
     rlp.writeList
       (concat (map rlp.writeBytes (istanbul.ForwardMessage.DestAddresses m))) ++
     rlp.writeBytes (istanbul.ForwardMessage.Msg m)).

Definition decode_ForwardMessage : rlp.Dec istanbul.ForwardMessage.t := fun s =>
  do (content, after) <~ rlp.streamList s;
  do (code, c1) <~ rlp.field (rlp.streamUint 64) content;
  do (dest, c2) <~
    rlp.field (rlp.decodeListSlice (rlp.decodeByteArray common.AddressLength)) c1;
  do (msg, c3) <~ rlp.field rlp.streamBytes c2;
  do _ <~ rlp.streamListEnd c3;
  inr ({| istanbul.ForwardMessage.Code := code;
          istanbul.ForwardMessage.DestAddresses := dest;
          istanbul.ForwardMessage.Msg := msg |}, after).

Definition encode_Message (m : istanbul.Message.t) : bytes :=
  rlp.writeList
    (rlp.writeUint (istanbul.Message.Code m) ++
     rlp.writeBytes (istanbul.Message.Msg m) ++
     rlp.writeBytes (istanbul.Message.Address m)).

Definition decode_Message : rlp.Dec istanbul.Message.t := fun s =>
  do (content, after) <~ rlp.streamList s;
  do (code, c1) <~ rlp.field (rlp.streamUint 64) content;
  do (msg, c2) <~ rlp.field rlp.streamBytes c1;
  do (address, c3) <~ rlp.field (rlp.decodeByteArray common.AddressLength) c2;
  do _ <~ rlp.streamListEnd c3;
  inr ({| istanbul.Message.Code := code;
          istanbul.Message.Msg := msg;
          istanbul.Message.Address := address |}, after).

Definition EncodeToBytes (m : istanbul.ForwardMessage.t) : error + bytes :=
  inr (encode_ForwardMessage m).
Definition Payload (m : istanbul.Message.t) : error + bytes :=
  inr (encode_Message m).
Definition FromPayload (b : bytes) : error + istanbul.Message.t :=
  DecodeBytes decode_Message b.
Definition Decode (m : istanbul.Message.t) : error + istanbul.ForwardMessage.t :=
  DecodeBytes decode_ForwardMessage (istanbul.Message.Msg m).

(** *** The proxied validator *)

(** The proxy handler holds the proxy of each assigned validator. *)
Definition ProxyHandler : Type := gmap common.Address proxy.

Definition GetValidatorAssignments (validators : list common.Address)
    (h : ProxyHandler)
    : (error + gmap common.Address (option proxy)) * ProxyHandler :=
  (inr (list_to_map ((fun a => (a, h !! a)) <$> validators)), h).

(** The transport records what it delivers; it cannot deliver to the
    peers of [down]. *)
Definition Backend : Type := list (consensus.Peer * bytes * N).

Definition backend_Address (_ : Backend) : common.Address := validator.

Definition backend_Unicast (down : list consensus.Peer)
    (to : consensus.Peer) (payload : bytes) (ethMsgCode : N) (b : Backend)
    : option error * Backend :=
  if bool_decide (to ∈ down) then (Some "write: broken pipe"%string, b)
  else (None, b ++ [(to, payload, ethMsgCode)]).

Definition SendForwardMsg (down : list consensus.Peer) :=
  SendForwardMsg (error := error) FwdMsg GetValidatorAssignments
    backend_Address (backend_Unicast down) EncodeToBytes Payload
    map_to_list map_to_list.

(** [A] is served by [R1], [B] by [R2] and [C] by a proxy that is not
    connected; nothing has been sent. *)
Definition pv0 : World error (proxiedValidatorEngine ProxyHandler Backend) :=
  {| engine := {| ph := <[A := proxy1]> (<[B := proxy2]> (<[C := proxy3]> ∅));
                  backend := [] |};
     trace := [] |}.

(** What the proxy handler answers for [A] and [C]: the connected proxy
    of [A], and the proxy of [C], which is not connected. *)
Definition assignments_AC : gmap common.Address (option proxy) :=
  list_to_map
    ((fun a => (a, ph (engine pv0) !! a)) <$> [A; C]).

(** *** A proxy *)

Definition Multicasts : Type := list (list common.Address * bytes * N).

(** The transport fails with [failure], if there is one. *)
Definition backend_Multicast (failure : option error)
    (destAddresses : list common.Address) (payload : bytes) (ethMsgCode : N)
    (sendToSelf : bool) (b : Multicasts) : option error * Multicasts :=
  match failure with
  | Some err => (Some err, b)
  | None => (None, b ++ [(destAddresses, payload, ethMsgCode)])
  end.

(** An enode certificate has to be a message. *)
Definition handleEnodeCertificateFromFwdMsg_impl (msg : bytes)
    (p : proxyEngine Multicasts) : option error * proxyEngine Multicasts :=
  match FromPayload msg with
  | inl _ => (Some "invalid enode certificate"%string, p)
  | inr _ => (None, p)
  end.

Definition handleForwardMsg (failure : option error) :=
  handleForwardMsg (error := error) EnodeCertificateMsg FromPayload Decode
    handleEnodeCertificateFromFwdMsg_impl (backend_Multicast failure).

(** The proxy with [V] registered, and before that. *)
Definition p0 : World error (proxyEngine Multicasts) :=
  {| engine := {| proxiedValidator := Some V; p_backend := [] |};
     trace := [] |}.
Definition p_unregistered : World error (proxyEngine Multicasts) :=
  {| engine := {| proxiedValidator := None; p_backend := [] |};
     trace := [] |}.

(** The inner message of the scenario, the message that forwards it, and
    the payload of that message. *)
Definition P : bytes := ["h"; "e"; "l"; "l"; "o"]%byte.

Definition forwarding (code : N) (dest : list common.Address) (msg : bytes)
    : istanbul.Message.t :=
  {| istanbul.Message.Code := FwdMsg;
     istanbul.Message.Msg :=
       encode_ForwardMessage
         {| istanbul.ForwardMessage.Code := code;
            istanbul.ForwardMessage.DestAddresses := dest;
            istanbul.ForwardMessage.Msg := msg |};
     istanbul.Message.Address := validator |}.

Definition forwarded (code : N) (dest : list common.Address) (msg : bytes)
    : bytes :=
  encode_Message (forwarding code dest msg).

(** An enode share message. *)
Definition shared : valEnodesShareData :=
  {| ValEnodes :=
       [ {| Address := A;
            EnodeURL := "enode://0a0a@10.0.0.1:30303";
            Version := 3 |};
         {| Address := B;
            EnodeURL := "enode://0b0b@10.0.0.2:30303";
            Version := 2 ^ 40 |} ] |}.
End Scenario.

(** ** The messages as text

    The [String] methods of the enode share message.  [common.Address.Hex]
    is a parameter; [%s] and [%v] print a string as it is and [%v] prints
    an unsigned integer in decimal. *)

Section Strings.
Variable Hex : common.Address → string.

Definition sharedValidatorEnode_String (sve : sharedValidatorEnode) : string :=
  ("{Address: " ++ Hex (Address sve) ++
   ", EnodeURL: " ++ EnodeURL sve ++
   ", Version: " ++ NilZero.string_of_uint (N.to_uint (Version sve)) ++
   "}")%string.

Definition valEnodesShareData_String (sd : valEnodesShareData) : string :=
  let outputStr :=
    fold_left
      (fun outputStr valEnode =>
         (outputStr ++ " " ++ sharedValidatorEnode_String valEnode)%string)
      (ValEnodes sd) "{ValEnodes:"%string in
  (outputStr ++ "}")%string.
End Strings.

(** ** The errors of the package

    The [errors.New] values of the package's [var] block; an error is its
    message. *)

Definition errUnauthorizedMessageFromProxiedValidator : string :=
  "message not signed by proxied validator".
Definition errInvalidEnodeCertificate : string := "invalid enode certificate".
Definition errUnauthorizedProxiedValidatorPeer : string :=
  "connection from unauthorized peer".
Definition ErrStoppedProxyHandler : string := "proxy handler is not running".
Definition ErrStartedProxyHandler : string := "proxy handler is running".
Definition ErrNodeNotProxiedValidator : string := "node not a proxied validator".
Definition ErrNodeNotProxy : string := "node not a proxy".

(** ** Reading tags, traces and assignments *)

(** What a tag that was read stands for. *)
Definition tagOf (k : rlp.Kind) : bytes :=
  match k with
  | rlp.Byte b => [b]
  | rlp.String size => rlp.encodeStringHeader size
  | rlp.List size => rlp.encodeListHeader size
  end.


(** The peers that the transmissions of a trace went to, in order. *)
Definition recipient {error} (ev : Event error) : option consensus.Peer :=
  match ev with
  | UnicastCall to _ _ _ => Some to
  | _ => None
  end.

Definition recipients {error} (evs : list (Event error))
    : list consensus.Peer :=
  omap recipient evs.

(** The addresses of the assignments [l], in their order, whose proxy is
    connected as [proxyPeer]. *)
Definition assignedTo (proxyPeer : consensus.Peer)
    (l : list (common.Address * option proxy)) : list common.Address :=
  omap
    (fun entry : common.Address * option proxy =>
       match entry.2 with
       | Some proxy =>
           if decide (peer proxy = Some proxyPeer) then Some entry.1 else None
       | None => None
       end) l.

(** What a run from the world [w] to the world [w'] appended to the
    trace. *)
Definition newEvents {error St} (w w' : World error St) : list (Event error) :=
  drop (length (trace w)) (trace w').

(** The call of the proxy handler that precedes the loop. *)
Definition firstCall {error} (proxyPeers : option (list consensus.Peer))
    (validatorAddresses : list common.Address) : list (Event error) :=
  match proxyPeers with
  | None => [GetValidatorAssignmentsCall validatorAddresses]
  | Some _ => []
  end.

(** The entries of the loop that have a payload to forward. *)
Definition withPayload (payload : option bytes)
    (proxySpecificPayloads : gmap enode.ID (option bytes))
    (entries : list (consensus.Peer * list common.Address))
    : list (consensus.Peer * list common.Address) :=
  filter
    (fun entry => is_Some (msgToForward payload proxySpecificPayloads entry.1))
    entries.

(** One of the two encoders fails with [err] on the forward message. *)
Definition encodingFails {error : Type} (FwdMsg : N)
    (EncodeToBytes : istanbul.ForwardMessage.t → error + bytes)
    (Payload : istanbul.Message.t → error + bytes)
    (fwdMessage : istanbul.ForwardMessage.t) (err : error) : Prop :=
  EncodeToBytes fwdMessage = inl err ∨
  ∃ fwdMsgBytes address,
    EncodeToBytes fwdMessage = inr fwdMsgBytes ∧
    Payload {| istanbul.Message.Code := FwdMsg;
               istanbul.Message.Msg := fwdMsgBytes;
               istanbul.Message.Address := address |} = inl err.

(** ** Collaborators that fail

    A proxy handler that has been stopped, and an encoder with a limit on
    the size of the message. *)

Module Outage.
Definition GetValidatorAssignments (validators : list common.Address)
    (h : Scenario.ProxyHandler)
    : (Scenario.error + gmap common.Address (option proxy)) *
      Scenario.ProxyHandler :=
  (inl ErrStoppedProxyHandler, h).

Definition EncodeToBytes (m : istanbul.ForwardMessage.t)
    : Scenario.error + bytes :=
  if (length (istanbul.ForwardMessage.Msg m) <=? 3)%nat
  then inr (Scenario.encode_ForwardMessage m)
  else inl "message too large"%string.
End Outage.

(** * Properties *)

(** ** Bytes *)

Lemma to_N_b8 (n : N) : Byte.to_N (b8 n) = (n mod 256)%N.
Proof.
  unfold b8. destruct (Byte.of_N (n mod 256)) as [b|] eqn:E.
  - by apply Byte.to_of_N.
  - apply Byte.of_N_None_iff in E.
    pose proof (N.mod_upper_bound n 256). lia.
Qed.

Lemma b8_to_N (b : byte) : b8 (Byte.to_N b) = b.
Proof.
  unfold b8. pose proof (Byte.to_N_bounded b).
  rewrite N.mod_small by lia. by rewrite Byte.of_to_N.
Qed.

(** ** The codec on known encodings *)

Example rlp_dog :
  rlp.writeString "dog" = [x83; "d"; "o"; "g"]%byte.
Proof. reflexivity. Qed.

Example rlp_1024 : rlp.writeUint 1024 = [x82; x04; x00].
Proof. reflexivity. Qed.

Example rlp_empty_list : rlp.writeList [] = [xc0].
Proof. reflexivity. Qed.

Example rlp_dec_1024 :
  rlp.streamUint 64 [x82; x04; x00; x01] = inr (1024%N, [x01]).
Proof. reflexivity. Qed.

Example rlp_dec_noncanonical :
  rlp.streamUint 64 [x82; x00; x04] = inl rlp.ErrCanonInt.
Proof. reflexivity. Qed.

(** ** The codec: integers *)

Section RlpIntegers.
Import rlp.

Lemma length_be_bytes (k : nat) (i : N) : length (be_bytes k i) = k.
Proof.
  revert i. induction k as [|k IH]; intros i; simpl; [done|].
  rewrite length_app, IH. simpl. lia.
Qed.

Lemma be_value_snoc (bs : bytes) (b : byte) :
  be_value (bs ++ [b]) = (be_value bs * 256 + Byte.to_N b)%N.
Proof. unfold be_value. by rewrite fold_left_app. Qed.

Lemma be_value_be_bytes (k : nat) (i : N) :
  (i < 256 ^ N.of_nat k)%N → be_value (be_bytes k i) = i.
Proof.
  revert i. induction k as [|k IH]; intros i Hi.
  - simpl in *. unfold be_value. simpl. lia.
  - simpl. rewrite be_value_snoc, to_N_b8.
    rewrite Nat2N.inj_succ, N.pow_succ_r' in Hi.
    rewrite IH.
    + pose proof (N.div_mod i 256). lia.
    + apply N.Div0.div_lt_upper_bound. lia.
Qed.

(** The first byte of [k + 1] bytes is the quotient by [256 ^ k]. *)
Lemma be_bytes_S (k : nat) (i : N) :
  be_bytes (S k) i = b8 (i / 256 ^ N.of_nat k) :: be_bytes k i.
Proof.
  revert i. induction k as [|k IH]; intros i.
  - simpl. by rewrite N.div_1_r.
  - change (be_bytes (S (S k)) i) with (be_bytes (S k) (i / 256) ++ [b8 i]).
    rewrite IH. simpl. f_equal.
    rewrite N.Div0.div_div, Nat2N.inj_succ, N.pow_succ_r'. done.
Qed.

Lemma intsize_bounds (i : N) :
  (i < 2 ^ 64)%N →
  (1 ≤ intsize i ≤ 8)%nat ∧
  (i < 256 ^ N.of_nat (intsize i))%N ∧
  ((1 < intsize i)%nat → (256 ^ N.of_nat (intsize i - 1) ≤ i)%N).
Proof.
  intros Hi. unfold intsize.
  repeat match goal with
         | |- context [N.ltb ?a ?b] => destruct (N.ltb_spec a b)
         end;
    (split; [lia|]); (split; [ simpl; lia | intros ?; simpl; lia ]).
Qed.

Lemma length_putint (i : N) : length (putint i) = intsize i.
Proof. apply length_be_bytes. Qed.

(** Reading back the bytes of [putint]. *)
Lemma readUint_putint (i : N) (rest : bytes) :
  (i < 2 ^ 64)%N →
  readUint (intsize i) (putint i ++ rest) = inr (i, rest).
Proof.
  intros Hi. destruct (intsize_bounds i Hi) as (Hk & Hub & Hlb).
  unfold putint. destruct (intsize i) as [|[|k]] eqn:Ek; [lia | |].
  - simpl. rewrite to_N_b8. f_equal. f_equal.
    apply N.mod_small. simpl in Hub. lia.
  - unfold readUint.
    pose proof (length_be_bytes (S (S k)) i) as Hlen.
    rewrite length_app, Hlen.
    case_match; [ apply Nat.ltb_lt in H; lia | ].
    rewrite take_app_length' by done.
    rewrite drop_app_length' by done.
    rewrite (be_bytes_S (S k)) at 1.
    rewrite to_N_b8.
    assert (Hq : (i / 256 ^ N.of_nat (S k) < 256)%N).
    { apply N.Div0.div_lt_upper_bound.
      rewrite (Nat2N.inj_succ (S k)), N.pow_succ_r' in Hub. lia. }
    assert (Hq' : (1 ≤ i / 256 ^ N.of_nat (S k))%N).
    { apply N.div_le_lower_bound; [ by apply N.pow_nonzero |].
      specialize (Hlb ltac:(lia)).
      replace (S (S k) - 1)%nat with (S k) in Hlb by lia. lia. }
    rewrite N.mod_small by done.
    case_match; [ apply N.eqb_eq in H0; lia | ].
    by rewrite be_value_be_bytes.
Qed.
End RlpIntegers.

(** ** The codec: strings, integers and lists are read back *)

(** Decides the comparisons of the goal, dropping the cases that the
    hypotheses exclude. *)
Ltac cmp :=
  repeat match goal with
         | |- context [N.ltb ?a ?b] => destruct (N.ltb_spec a b); try lia
         | |- context [N.leb ?a ?b] => destruct (N.leb_spec a b); try lia
         | |- context [N.eqb ?a ?b] => destruct (N.eqb_spec a b); try lia
         | |- context [Nat.ltb ?a ?b] => destruct (Nat.ltb_spec a b); try lia
         | |- context [Nat.eqb ?a ?b] => destruct (Nat.eqb_spec a b); try lia
         end.

Section RlpValues.
Import rlp.

Lemma readKind_puthead (smalltag largetag size : N) (rest : bytes) :
  (size < 2 ^ 64)%N →
  (smalltag = 0x80 ∧ largetag = 0xB7 ∨ smalltag = 0xC0 ∧ largetag = 0xF7)%N →
  readKind (puthead smalltag largetag size ++ rest) =
  inr (if (smalltag =? 0x80)%N then String size else List size, rest).
Proof.
  intros Hsize Htag. unfold puthead.
  destruct (N.ltb_spec size 56) as [Hs|Hs].
  - simpl. rewrite to_N_b8, N.mod_small by lia.
    destruct Htag as [[-> ->]|[-> ->]]; cmp; simpl; do 3 f_equal; lia.
  - destruct (intsize_bounds size Hsize) as (Hk & _ & _).
    simpl. rewrite length_putint, to_N_b8, N.mod_small by lia.
    destruct Htag as [[-> ->]|[-> ->]]; cmp.
    + replace (N.to_nat (0xB7 + N.of_nat (intsize size) - 0xB7))
        with (intsize size) by lia.
      rewrite readUint_putint by done. simpl. by cmp.
    + replace (N.to_nat (0xF7 + N.of_nat (intsize size) - 0xF7))
        with (intsize size) by lia.
      rewrite readUint_putint by done. simpl. by cmp.
Qed.

Lemma streamKind_string (b rest : bytes) :
  (N.of_nat (length b) < 2 ^ 64)%N →
  streamKind (encodeStringHeader (N.of_nat (length b)) ++ b ++ rest) =
  inr (String (N.of_nat (length b)), b ++ rest).
Proof.
  intros Hb. unfold streamKind, encodeStringHeader.
  rewrite readKind_puthead by (done || lia). simpl.
  rewrite length_app. by cmp.
Qed.

Lemma streamKind_list (content rest : bytes) :
  (N.of_nat (length content) < 2 ^ 64)%N →
  streamKind (encodeListHeader (N.of_nat (length content)) ++ content ++ rest) =
  inr (List (N.of_nat (length content)), content ++ rest).
Proof.
  intros Hb. unfold streamKind, encodeListHeader.
  rewrite readKind_puthead by (done || lia). simpl.
  rewrite length_app. by cmp.
Qed.

Lemma streamKind_byte (b0 : byte) (rest : bytes) :
  (Byte.to_N b0 < 128)%N → streamKind (b0 :: rest) = inr (Byte b0, rest).
Proof. intros Hb. unfold streamKind. simpl. by cmp. Qed.

(** What [writeBytes] writes is the header and the bytes, but for a
    single byte below 0x80. *)
Lemma writeBytes_cases (b : bytes) :
  (∃ b0, b = [b0] ∧ (Byte.to_N b0 < 128)%N ∧ writeBytes b = [b0]) ∨
  ((∀ b0, b = [b0] → (128 ≤ Byte.to_N b0)%N) ∧
   writeBytes b = encodeStringHeader (N.of_nat (length b)) ++ b).
Proof.
  destruct b as [|b0 [|b1 b]]; simpl.
  - right. split; [ intros ? [=] | done ].
  - destruct (N.leb_spec (Byte.to_N b0) 0x7F).
    + left. exists b0. split_and!; [done | lia | done].
    + right. split; [ intros ? [= <-]; lia | done ].
  - right. split; [ intros ? [=] | done ].
Qed.

Lemma streamBytes_writeBytes (b rest : bytes) :
  (N.of_nat (length b) < 2 ^ 64)%N →
  streamBytes (writeBytes b ++ rest) = inr (b, rest).
Proof.
  intros Hb. unfold streamBytes.
  destruct (writeBytes_cases b) as [(b0 & -> & Hb0 & ->)|[Hbig ->]].
  - simpl app. by rewrite streamKind_byte.
  - rewrite <- app_assoc, streamKind_string by done. simpl.
    rewrite Nat2N.id, take_app_length, drop_app_length.
    destruct b as [|b0 [|b1 b]]; try done.
    specialize (Hbig b0 eq_refl). by cmp.
Qed.

Lemma decodeString_writeString (s : string) (rest : bytes) :
  (N.of_nat (length (list_byte_of_string s)) < 2 ^ 64)%N →
  decodeString (writeString s ++ rest) = inr (s, rest).
Proof.
  intros Hs. unfold decodeString, writeString.
  rewrite streamBytes_writeBytes by done. simpl.
  by rewrite string_of_list_byte_of_string.
Qed.

Lemma decodeByteArray_writeBytes (vlen : nat) (b rest : bytes) :
  length b = vlen →
  (N.of_nat vlen < 2 ^ 64)%N →
  decodeByteArray vlen (writeBytes b ++ rest) = inr (b, rest).
Proof.
  intros Hlen Hb. subst vlen. unfold decodeByteArray.
  destruct (writeBytes_cases b) as [(b0 & -> & Hb0 & ->)|[Hbig ->]].
  - simpl app. rewrite streamKind_byte by done. simpl. done.
  - rewrite <- app_assoc, streamKind_string by done. simpl.
    cmp. rewrite take_app_length, drop_app_length.
    destruct b as [|b0 [|b1 b]]; try done.
    specialize (Hbig b0 eq_refl). by cmp.
Qed.

Lemma streamUint_writeUint (i : N) (rest : bytes) :
  (i < 2 ^ 64)%N →
  streamUint 64 (writeUint i ++ rest) = inr (i, rest).
Proof.
  intros Hi. unfold streamUint, writeUint.
  destruct (N.eqb_spec i 0) as [->|Hi0].
  { change ([b8 128] ++ rest)
      with (encodeStringHeader (N.of_nat (length (@nil byte))) ++ [] ++ rest).
    by rewrite streamKind_string. }
  destruct (N.ltb_spec i 128) as [Hsmall|Hbig].
  - simpl app. rewrite streamKind_byte by (rewrite to_N_b8, N.mod_small; lia).
    simpl. rewrite to_N_b8, N.mod_small by lia. by cmp.
  - destruct (intsize_bounds i Hi) as (Hk & _ & _).
    pose proof (streamKind_string (putint i) rest) as HK.
    rewrite length_putint in HK.
    unfold encodeStringHeader, puthead in HK.
    destruct (N.ltb_spec (N.of_nat (intsize i)) 56); [|lia].
    simpl app in *. rewrite length_putint, HK by lia. simpl.
    change (64 / 8)%N with 8%N. cmp.
    rewrite Nat2N.id, readUint_putint by done.
    destruct (N.ltb_spec 0 (N.of_nat (intsize i))); [|lia].
    simpl. by cmp.
Qed.

Lemma streamList_writeList (content rest : bytes) :
  (N.of_nat (length content) < 2 ^ 64)%N →
  streamList (writeList content ++ rest) = inr (content, rest).
Proof.
  intros Hc. unfold streamList, writeList.
  rewrite <- app_assoc, streamKind_list by done. simpl.
  by rewrite Nat2N.id, take_app_length, drop_app_length.
Qed.

(** An encoding is never shorter than what it encodes, and never empty. *)
Lemma length_puthead (smalltag largetag size : N) :
  (1 ≤ length (puthead smalltag largetag size))%nat.
Proof. unfold puthead. case_match; simpl; lia. Qed.

Lemma length_writeList (content : bytes) :
  (length content < length (writeList content))%nat.
Proof.
  unfold writeList, encodeListHeader. rewrite length_app.
  pose proof (length_puthead 0xC0 0xF7 (N.of_nat (length content))). lia.
Qed.

Lemma length_writeBytes (b : bytes) :
  (length b ≤ length (writeBytes b))%nat.
Proof.
  destruct (writeBytes_cases b) as [(b0 & -> & Hb0 & ->)|[_ ->]]; [done|].
  rewrite length_app. lia.
Qed.
End RlpValues.

(** ** The validator enode share message is read back *)

Section EnodeShare.
Import rlp.

Lemma field_inr {A} (d : Dec A) (s : Stream) (r : A * Stream) :
  d s = inr r → field d s = inr r.
Proof. unfold field. by intros ->. Qed.

Lemma decode_encode_sharedValidatorEnode
    (sve : sharedValidatorEnode) (rest : bytes) :
  wf_sharedValidatorEnode sve →
  (N.of_nat (length (encode_sharedValidatorEnode sve)) < 2 ^ 64)%N →
  decode_sharedValidatorEnode (encode_sharedValidatorEnode sve ++ rest) =
  inr (sve, rest).
Proof.
  intros [Haddr Hver] Hsize.
  unfold decode_sharedValidatorEnode, encode_sharedValidatorEnode in *.
  set (content := writeBytes (Address sve) ++ writeString (EnodeURL sve) ++
                  writeUint (Version sve)) in *.
  pose proof (length_writeList content) as Hcontent.
  assert (Hurl : (length (list_byte_of_string (EnodeURL sve))
                  ≤ length content)%nat).
  { subst content. rewrite !length_app. unfold writeString.
    pose proof (length_writeBytes (list_byte_of_string (EnodeURL sve))).
    lia. }
  rewrite streamList_writeList by lia. simpl. subst content.
  erewrite field_inr;
    [| apply decodeByteArray_writeBytes; [done | by vm_compute] ].
  simpl.
  erewrite field_inr; [| apply decodeString_writeString; lia ].
  simpl.
  rewrite <- (app_nil_r (writeUint (Version sve))).
  erewrite field_inr; [| by apply streamUint_writeUint ].
  simpl. by destruct sve.
Qed.

Lemma decodeSliceElems_cons {A} (elemdec : Dec A) (rounds : nat)
    (content : Stream) :
  content ≠ [] →
  decodeSliceElems elemdec (S rounds) content =
  (do (x, content') <~ elemdec content;
   do xs <~ decodeSliceElems elemdec rounds content';
   inr (x :: xs)).
Proof. by destruct content. Qed.

Lemma encode_sharedValidatorEnode_nonempty (sve : sharedValidatorEnode)
    (rest : bytes) :
  encode_sharedValidatorEnode sve ++ rest ≠ [].
Proof.
  intros H%(f_equal length). rewrite length_app in H. simpl in H.
  unfold encode_sharedValidatorEnode in H.
  match type of H with
  | context [writeList ?c] => pose proof (length_writeList c)
  end.
  lia.
Qed.

Lemma decodeSliceElems_encode (l : list sharedValidatorEnode) (rounds : nat) :
  Forall wf_sharedValidatorEnode l →
  (N.of_nat (length (concat (map encode_sharedValidatorEnode l))) < 2 ^ 64)%N →
  (length (concat (map encode_sharedValidatorEnode l)) ≤ rounds)%nat →
  decodeSliceElems decode_sharedValidatorEnode rounds
    (concat (map encode_sharedValidatorEnode l)) = inr l.
Proof.
  revert rounds. induction l as [|sve l IH]; intros rounds Hwf Hsize Hrounds.
  - by destruct rounds.
  - apply Forall_cons in Hwf as [Hsve Hl].
    simpl in *. rewrite length_app in Hsize, Hrounds.
    pose proof (encode_sharedValidatorEnode_nonempty sve []) as Hne.
    rewrite app_nil_r in Hne.
    assert (0 < length (encode_sharedValidatorEnode sve))%nat
      by (destruct (encode_sharedValidatorEnode sve); simpl; [done | lia]).
    destruct rounds as [|rounds]; [lia|].
    rewrite decodeSliceElems_cons
      by apply encode_sharedValidatorEnode_nonempty.
    rewrite decode_encode_sharedValidatorEnode by (done || lia).
    simpl. rewrite IH by (done || lia). done.
Qed.

Lemma decodeListSlice_encode_ValEnodes (l : list sharedValidatorEnode)
    (rest : bytes) :
  Forall wf_sharedValidatorEnode l →
  (N.of_nat (length (encode_ValEnodes l)) < 2 ^ 64)%N →
  decodeListSlice decode_sharedValidatorEnode (encode_ValEnodes l ++ rest) =
  inr (l, rest).
Proof.
  intros Hwf Hsize. unfold decodeListSlice, encode_ValEnodes in *.
  pose proof (length_writeList (concat (map encode_sharedValidatorEnode l))).
  rewrite streamList_writeList by lia. simpl.
  by rewrite decodeSliceElems_encode by (done || lia).
Qed.

(** Decoding an encoded message, whatever follows it in the stream. *)
Lemma DecodeRLP_EncodeRLP_app (sd sd0 : valEnodesShareData) (rest : bytes) :
  Forall wf_sharedValidatorEnode (ValEnodes sd) →
  (N.of_nat (length (EncodeRLP sd)) < 2 ^ 64)%N →
  DecodeRLP sd0 (EncodeRLP sd ++ rest) = inr (sd, rest).
Proof.
  intros Hwf Hsize. unfold DecodeRLP, EncodeRLP in *.
  pose proof (length_writeList (encode_ValEnodes (ValEnodes sd))).
  rewrite streamList_writeList by lia. simpl.
  rewrite <- (app_nil_r (encode_ValEnodes (ValEnodes sd))).
  erewrite field_inr;
    [| apply decodeListSlice_encode_ValEnodes; [done | lia] ].
  simpl. by destruct sd.
Qed.
End EnodeShare.

(** C8 (round trip of the enode share message).  For every
    [valEnodesShareData] value (its addresses are arrays of 20 bytes, its
    versions are [uint]s, and its encoding is a byte slice, whose length
    is below [2 ^ 64]), [DecodeRLP] on the bytes that [EncodeRLP] wrote
    succeeds, consumes them all and yields the original value, whatever
    the receiver held before. *)
Theorem DecodeRLP_EncodeRLP (sd sd0 : valEnodesShareData) :
  Forall wf_sharedValidatorEnode (ValEnodes sd) →
  (N.of_nat (length (EncodeRLP sd)) < 2 ^ 64)%N →
  DecodeRLP sd0 (EncodeRLP sd) = inr (sd, []).
Proof.
  intros Hwf Hsize.
  rewrite <- (app_nil_r (EncodeRLP sd)).
  by apply DecodeRLP_EncodeRLP_app.
Qed.

(** ** The receiving side *)

Section ProxyEngineProperties.
Context {error : Type} {Backend : Type}.
Variable EnodeCertificateMsg : N.
Variable FromPayload : bytes → error + istanbul.Message.t.
Variable Decode : istanbul.Message.t → error + istanbul.ForwardMessage.t.
Variable handleEnodeCertificateFromFwdMsg_impl :
  bytes → proxyEngine Backend → option error * proxyEngine Backend.
Variable backend_Multicast :
  list common.Address → bytes → N → bool → Backend → option error * Backend.

Local Abbreviation handle :=
  (handleForwardMsg EnodeCertificateMsg FromPayload Decode
     handleEnodeCertificateFromFwdMsg_impl backend_Multicast).
Local Abbreviation certificateStep :=
  (enodeCertificateStep EnodeCertificateMsg
     handleEnodeCertificateFromFwdMsg_impl).
Local Abbreviation decodesTo := (decodesTo FromPayload Decode).
Local Abbreviation decodeFails := (decodeFails FromPayload Decode).

Lemma notFromProxiedValidator_false (p : proxyEngine Backend) peer :
  isProxiedValidator p peer → notFromProxiedValidator p peer = false.
Proof.
  intros (pv & Hpv & Hid). unfold notFromProxiedValidator. rewrite Hpv.
  apply bool_decide_eq_false. by intros ?.
Qed.

Lemma notFromProxiedValidator_true (p : proxyEngine Backend) peer :
  proxiedValidator p = None ∨
  (∃ pv, proxiedValidator p = Some pv ∧
         enode.ID_of (consensus.Node pv) ≠ enode.ID_of (consensus.Node peer)) →
  notFromProxiedValidator p peer = true.
Proof.
  unfold notFromProxiedValidator. intros [->|(pv & -> & Hid)]; [done|].
  by apply bool_decide_eq_true.
Qed.

(** After the authentication and the decoding, the handler is the
    certificate step followed by the multicast. *)
Lemma handleForwardMsg_decoded peer payload fwdMsg
    (w : World error (proxyEngine Backend)) :
  isProxiedValidator (engine w) peer →
  decodesTo payload fwdMsg →
  handle peer payload w =
  (let (r, w1) := certificateStep fwdMsg w in
   match r with
   | Some err => ((true, Some err), w1)
   | None =>
       let (r', w2) :=
         Multicast backend_Multicast
           (istanbul.ForwardMessage.DestAddresses fwdMsg)
           (istanbul.ForwardMessage.Msg fwdMsg)
           (istanbul.ForwardMessage.Code fwdMsg) false w1 in
       ((true, r'), w2)
   end).
Proof.
  intros Hauth (istMsg & Hmsg & Hfwd).
  unfold handleForwardMsg.
  rewrite (notFromProxiedValidator_false _ _ Hauth), Hmsg, Hfwd.
  unfold bind.
  destruct (certificateStep fwdMsg w) as [[err|] w1]; [done|].
  destruct (Multicast _ _ _ _ _ w1) as [[err|] w2]; done.
Qed.

(** The certificate step calls the certificate handling when the code
    is that of an enode certificate, and does nothing otherwise. *)
Lemma enodeCertificateStep_spec fwdMsg (w : World error (proxyEngine Backend)) :
  certificateStep fwdMsg w =
  if (istanbul.ForwardMessage.Code fwdMsg =? EnodeCertificateMsg)%N then
    let (r, p') :=
      handleEnodeCertificateFromFwdMsg_impl
        (istanbul.ForwardMessage.Msg fwdMsg) (engine w) in
    (r, {| engine := p';
           trace := trace w ++
             [HandleEnodeCertificateCall (istanbul.ForwardMessage.Msg fwdMsg) r] |})
  else (None, w).
Proof.
  unfold enodeCertificateStep. case_match; [|done].
  unfold handleEnodeCertificateFromFwdMsg, call. by case_match.
Qed.

(** C1 (authentication).  When no proxied validator is registered, or
    the node ID of the peer differs from that of the registered proxied
    validator, [handleForwardMsg] returns handled = false and a nil error
    and leaves the engine and the trace of calls as they were: nothing
    is multicast and no state changes. *)
Theorem handleForwardMsg_not_from_proxied_validator peer payload
    (w : World error (proxyEngine Backend)) :
  proxiedValidator (engine w) = None ∨
  (∃ pv, proxiedValidator (engine w) = Some pv ∧
         enode.ID_of (consensus.Node pv) ≠ enode.ID_of (consensus.Node peer)) →
  handle peer payload w = ((false, None), w).
Proof.
  intros H. unfold handleForwardMsg.
  by rewrite (notFromProxiedValidator_true _ _ H).
Qed.

(** C3 (handled flag).  For a forward message from the registered
    proxied validator whose payload decodes as a message,
    [handleForwardMsg] returns handled = true whatever comes of the rest:
    the error is nil when the forward message decodes and the certificate
    step and the multicast succeed, and it is not nil otherwise. *)
Theorem handleForwardMsg_handled peer payload istMsg
    (w : World error (proxyEngine Backend)) :
  isProxiedValidator (engine w) peer →
  FromPayload payload = inr istMsg →
  ∃ err w', handle peer payload w = ((true, err), w') ∧
    (err = None ↔
     ∃ fwdMsg w1,
       Decode istMsg = inr fwdMsg ∧
       certificateStep fwdMsg w = (None, w1) ∧
       Multicast backend_Multicast
         (istanbul.ForwardMessage.DestAddresses fwdMsg)
         (istanbul.ForwardMessage.Msg fwdMsg)
         (istanbul.ForwardMessage.Code fwdMsg) false w1 = (None, w')).
Proof.
  intros Hauth Hmsg.
  destruct (Decode istMsg) as [err|fwdMsg] eqn:Hfwd.
  { exists (Some err), w. split.
    - unfold handleForwardMsg.
      by rewrite (notFromProxiedValidator_false _ _ Hauth), Hmsg, Hfwd.
    - split; [done | by intros (? & ? & [=] & _)]. }
  assert (Hdec : decodesTo payload fwdMsg) by by exists istMsg.
  rewrite (handleForwardMsg_decoded _ _ _ _ Hauth Hdec).
  destruct (certificateStep fwdMsg w) as [[err|] w1] eqn:Hstep.
  - exists (Some err), w1. split; [done|].
    split; [done|]. intros (? & ? & [= <-] & Hstep' & _). congruence.
  - destruct (Multicast _ _ _ _ _ w1) as [r' w2] eqn:HM.
    exists r', w2. split; [done|]. split.
    + intros ->. by exists fwdMsg, w1.
    + intros (? & w1' & [= <-] & Hstep' & HM').
      rewrite Hstep in Hstep'. injection Hstep' as <-.
      rewrite HM in HM'. by injection HM'.
Qed.

(** C4 (re-broadcast).  On the success path (the message comes from the
    proxied validator, decodes, and the certificate step reports no
    error) [handleForwardMsg] calls [Multicast] once, after the
    certificate step, with the destination addresses, the message bytes
    and the code of the decoded forward message and with [false], and
    returns handled = true with whatever error [Multicast] returned. *)
Theorem handleForwardMsg_multicast peer payload fwdMsg
    (w w1 : World error (proxyEngine Backend)) :
  isProxiedValidator (engine w) peer →
  decodesTo payload fwdMsg →
  certificateStep fwdMsg w = (None, w1) →
  let dest := istanbul.ForwardMessage.DestAddresses fwdMsg in
  let msg := istanbul.ForwardMessage.Msg fwdMsg in
  let code := istanbul.ForwardMessage.Code fwdMsg in
  let (r, b') := backend_Multicast dest msg code false (p_backend (engine w1)) in
  handle peer payload w =
  ((true, r),
   {| engine := {| proxiedValidator := proxiedValidator (engine w1);
                   p_backend := b' |};
      trace := trace w1 ++ [MulticastCall dest msg code false r] |}) ∧
  filter is_Multicast (trace w1) = filter is_Multicast (trace w).
Proof.
  intros Hauth Hdec Hstep. cbv zeta.
  rewrite (handleForwardMsg_decoded _ _ _ _ Hauth Hdec), Hstep.
  unfold Multicast, call.
  destruct (backend_Multicast _ _ _ _ _) as [r b'].
  split; [done|].
  rewrite enodeCertificateStep_spec in Hstep.
  destruct (_ =? _)%N; [| by injection Hstep as <-].
  destruct (handleEnodeCertificateFromFwdMsg_impl _ _) as [r0 p'].
  injection Hstep as -> <-. simpl.
  by rewrite filter_app, app_nil_r.
Qed.

(** C5 (malformed payload).  When the peer is the proxied validator and
    the payload does not decode, as a message or as a forward message,
    [handleForwardMsg] returns handled = true and the decoding error, and
    leaves the engine and the trace as they were: nothing is multicast. *)
Theorem handleForwardMsg_decode_error peer payload err
    (w : World error (proxyEngine Backend)) :
  isProxiedValidator (engine w) peer →
  decodeFails payload err →
  handle peer payload w = ((true, Some err), w).
Proof.
  intros Hauth Hfail. unfold handleForwardMsg.
  rewrite (notFromProxiedValidator_false _ _ Hauth).
  destruct Hfail as [->|(istMsg & -> & ->)]; done.
Qed.

(** C6 (enode certificate).  When the decoded code is that of an enode
    certificate, the certificate handling is called on the inner message
    before anything is multicast; when it fails, [handleForwardMsg]
    returns handled = true and that error, and [Multicast] is not
    called. *)
Theorem handleForwardMsg_enode_certificate peer payload fwdMsg
    (w : World error (proxyEngine Backend)) :
  isProxiedValidator (engine w) peer →
  decodesTo payload fwdMsg →
  istanbul.ForwardMessage.Code fwdMsg = EnodeCertificateMsg →
  let msg := istanbul.ForwardMessage.Msg fwdMsg in
  let (r, p') := handleEnodeCertificateFromFwdMsg_impl msg (engine w) in
  ∃ res w',
    handle peer payload w = (res, w') ∧
    match r with
    | Some err =>
        res = (true, Some err) ∧
        w' = {| engine := p';
                trace := trace w ++ [HandleEnodeCertificateCall msg (Some err)] |}
    | None =>
        ∃ r',
          res = (true, r') ∧
          trace w' = trace w ++
            [HandleEnodeCertificateCall msg None;
             MulticastCall (istanbul.ForwardMessage.DestAddresses fwdMsg) msg
               (istanbul.ForwardMessage.Code fwdMsg) false r']
    end.
Proof.
  intros Hauth Hdec Hcode. cbv zeta.
  rewrite (handleForwardMsg_decoded _ _ _ _ Hauth Hdec).
  rewrite enodeCertificateStep_spec, Hcode, N.eqb_refl.
  destruct (handleEnodeCertificateFromFwdMsg_impl _ _) as [[err|] p'].
  - by eexists _, _.
  - unfold Multicast, call. simpl.
    destruct (backend_Multicast _ _ _ _ _) as [r' b'].
    eexists _, _. split; [done|]. exists r'. split; [done|].
    simpl. by rewrite <- app_assoc.
Qed.
End ProxyEngineProperties.

(** ** The sending side *)

Section ProxiedValidatorEngineProperties.
Context {error : Type} {ProxyHandler Backend : Type}.
Variable FwdMsg : N.
Variable GetValidatorAssignments :
  list common.Address → ProxyHandler →
  (error + gmap common.Address (option proxy)) * ProxyHandler.
Variable backend_Address : Backend → common.Address.
Variable backend_Unicast :
  consensus.Peer → bytes → N → Backend → option error * Backend.
Variable EncodeToBytes : istanbul.ForwardMessage.t → error + bytes.
Variable Payload : istanbul.Message.t → error + bytes.
Variable rangeAssignments :
  gmap common.Address (option proxy) → list (common.Address * option proxy).
Variable rangeProxies :
  gmap consensus.Peer (list common.Address) →
  list (consensus.Peer * list common.Address).

Local Abbreviation PV := (proxiedValidatorEngine ProxyHandler Backend).
Local Abbreviation send :=
  (SendForwardMsg FwdMsg GetValidatorAssignments backend_Address
     backend_Unicast EncodeToBytes Payload rangeAssignments rangeProxies).
Local Abbreviation loop :=
  (sendLoop FwdMsg backend_Address backend_Unicast EncodeToBytes Payload).
Local Abbreviation carries := (carries FwdMsg EncodeToBytes Payload).
Local Abbreviation sentFor := (sentFor FwdMsg EncodeToBytes Payload).
Local Abbreviation relays :=
  (relays GetValidatorAssignments rangeAssignments).

Lemma sentFor_mono code payload psp entries entries' ev :
  entries ⊆ entries' →
  sentFor code payload psp entries ev → sentFor code payload psp entries' ev.
Proof.
  intros Hsub (p & addrs & msg & Hin & Hmsg & Hev).
  exists p, addrs, msg. split; [by apply Hsub | done].
Qed.

(** *** The loop *)

(** Every call of the loop is a transmission for one of the entries,
    and the proxy handler is not touched. *)
Lemma sendLoop_sound code payload psp entries (w : World error PV) :
  ∃ evs,
    trace (loop code payload psp entries w).2 = trace w ++ evs ∧
    ph (engine (loop code payload psp entries w).2) = ph (engine w) ∧
    Forall (sentFor code payload psp entries) evs.
Proof.
  revert w. induction entries as [|[p addrs] rest IH]; intros w.
  { exists []. simpl. by rewrite app_nil_r. }
  simpl.
  destruct (msgToForward payload psp p) as [msg|] eqn:Hmsg.
  - destruct (EncodeToBytes _) as [err|fwdMsgBytes] eqn:Henc.
    { exists []. simpl. by rewrite app_nil_r. }
    destruct (Payload _) as [err|fwdMsgPayload] eqn:Hpay.
    { exists []. simpl. by rewrite app_nil_r. }
    unfold bind, Unicast, call.
    destruct (backend_Unicast _ _ _ _) as [outcome b'].
    match goal with
    | |- context [loop _ _ _ rest ?w1] =>
        destruct (IH w1) as (evs & Htrace & Hph & Hevs)
    end.
    exists (UnicastCall p fwdMsgPayload FwdMsg outcome :: evs).
    split_and!.
    + rewrite Htrace. simpl. by rewrite <- app_assoc.
    + by rewrite Hph.
    + constructor.
      * exists p, addrs, msg. split_and!; [ by left | done |].
        by eexists _, _, _, _.
      * eapply Forall_impl; [done|].
        intros ev. apply sentFor_mono. intros x Hx. by right.
  - destruct (IH w) as (evs & Htrace & Hph & Hevs).
    exists evs. split_and!; [done..|].
    eapply Forall_impl; [done|].
    intros ev. apply sentFor_mono. intros x Hx. by right.
Qed.

(** An error of the loop is an error of one of the two encoders. *)
Lemma sendLoop_error code payload psp entries (w : World error PV) err :
  (loop code payload psp entries w).1 = Some err →
  (∃ m, EncodeToBytes m = inl err) ∨ (∃ m, Payload m = inl err).
Proof.
  revert w. induction entries as [|[p addrs] rest IH]; intros w; [done|].
  simpl.
  destruct (msgToForward payload psp p) as [msg|]; [| apply IH].
  destruct (EncodeToBytes _) as [e|fwdMsgBytes] eqn:Henc.
  { intros [= ->]. left. by eexists. }
  destruct (Payload _) as [e|fwdMsgPayload] eqn:Hpay.
  { intros [= ->]. right. by eexists. }
  unfold bind. destruct (Unicast _ _ _ _ _) as [r w1]. apply IH.
Qed.

(** When the encoders do not fail, the loop returns nil and has
    transmitted to every entry that has a payload, whatever the
    transmissions reported. *)
Lemma sendLoop_complete code payload psp entries (w : World error PV) :
  (∀ m, ∃ b, EncodeToBytes m = inr b) →
  (∀ m, ∃ b, Payload m = inr b) →
  (loop code payload psp entries w).1 = None ∧
  ∀ p addrs msg,
    (p, addrs) ∈ entries →
    msgToForward payload psp p = Some msg →
    ∃ fwdMsgPayload outcome,
      UnicastCall p fwdMsgPayload FwdMsg outcome ∈
        drop (length (trace w)) (trace (loop code payload psp entries w).2).
Proof.
  intros Henc Hpay.
  revert w. induction entries as [|[p addrs] rest IH]; intros w.
  { split; [done|]. intros ??? Hin. by apply elem_of_nil in Hin. }
  simpl.
  destruct (msgToForward payload psp p) as [msg|] eqn:Hmsg.
  - match goal with
    | |- context [EncodeToBytes ?m] =>
        destruct (Henc m) as [fwdMsgBytes ->]
    end.
    match goal with
    | |- context [Payload ?m] => destruct (Hpay m) as [fwdMsgPayload ->]
    end.
    unfold bind, Unicast, call.
    destruct (backend_Unicast _ _ _ _) as [outcome b'].
    match goal with
    | |- context [loop _ _ _ rest ?w1] =>
        destruct (IH w1) as [Hr Hall];
        destruct (sendLoop_sound code payload psp rest w1)
          as (evs & Htrace & _ & _)
    end.
    split; [done|].
    intros p' addrs' msg' Hin Hmsg'.
    rewrite Htrace. simpl. rewrite <- app_assoc, drop_app_length.
    apply elem_of_cons in Hin as [[= -> ->]|Hin].
    + exists fwdMsgPayload, outcome. by left.
    + destruct (Hall p' addrs' msg' Hin Hmsg') as (b & o & Hev).
      exists b, o. rewrite Htrace in Hev. simpl in Hev.
      rewrite drop_app_length in Hev. by right.
  - destruct (IH w) as [Hr Hall]. split; [done|].
    intros p' addrs' msg' Hin Hmsg'.
    apply elem_of_cons in Hin as [[= -> ->]|Hin]; [congruence|].
    by apply (Hall p' addrs' msg').
Qed.

(** *** The map from the proxies to their addresses *)

Lemma foldl_peerStep_lookup (proxyPeers : list consensus.Peer)
    (m : gmap consensus.Peer (list common.Address)) (p : consensus.Peer) :
  foldl peerStep m proxyPeers !! p =
  if decide (p ∈ proxyPeers) then Some [] else m !! p.
Proof.
  revert m. induction proxyPeers as [|x l IH]; intros m.
  { destruct (decide (p ∈ [])) as [H%elem_of_nil|]; done. }
  change (foldl peerStep m (x :: l)) with (foldl peerStep (peerStep m x) l).
  rewrite IH. unfold peerStep.
  destruct (decide (p ∈ l)) as [Hl|Hl].
  - rewrite decide_True; [done | by right].
  - destruct (decide (p = x)) as [->|Hne].
    + rewrite lookup_insert_eq, decide_True; [done | by left].
    + rewrite lookup_insert_ne by done.
      rewrite decide_False; [done|].
      intros [?|?]%elem_of_cons; done.
Qed.

Lemma assignStep_lookup m a0 v p (a : common.Address) :
  a ∈ default [] (assignStep m (a0, v) !! p) →
  a ∈ default [] (m !! p) ∨
  (a = a0 ∧ ∃ proxy, v = Some proxy ∧ peer proxy = Some p).
Proof.
  unfold assignStep. destruct v as [proxy|]; [| by left].
  destruct (peer proxy) as [proxy_peer|] eqn:Hpeer; [| by left].
  destruct (decide (proxy_peer = p)) as [->|Hne].
  - rewrite lookup_insert_eq. simpl.
    intros [Hold|Hnew%list_elem_of_singleton]%elem_of_app; [by left|].
    right. split; [done|]. by exists proxy.
  - rewrite lookup_insert_ne by done. by left.
Qed.

(** An address among the addresses of a proxy was put there for an
    assignment to a proxy with that peer. *)
Lemma foldl_assignStep_lookup l m p (a : common.Address) :
  a ∈ default [] (foldl assignStep m l !! p) →
  a ∈ default [] (m !! p) ∨
  ∃ proxy, (a, Some proxy) ∈ l ∧ peer proxy = Some p.
Proof.
  revert m. induction l as [|[a0 v] l IH]; intros m; simpl; [by left|].
  intros [Hin|(proxy & Hin & Hpeer)]%IH.
  - apply assignStep_lookup in Hin as [?|(-> & proxy & -> & Hpeer)];
      [by left|].
    right. exists proxy. split; [by left | done].
  - right. exists proxy. split; [by right | done].
Qed.

(** Assignments without a connected proxy leave the map as it is. *)
Lemma foldl_assignStep_unpeered l m :
  (∀ (a : common.Address) proxy, (a, Some proxy) ∈ l → peer proxy = None) →
  foldl assignStep m l = m.
Proof.
  revert m. induction l as [|[a0 v] l IH]; intros m Hl; simpl; [done|].
  rewrite IH.
  - unfold assignStep. destruct v as [proxy|]; [|done].
    by rewrite (Hl a0 proxy) by by left.
  - intros a proxy Hin. apply (Hl a). by right.
Qed.

(** *** The two ways into the loop *)

Lemma SendForwardMsg_given proxyPeers validatorAddresses code payload psp
    (w : World error PV) :
  send (Some proxyPeers) validatorAddresses code payload psp w =
  loop code payload psp (rangeProxies (foldl peerStep ∅ proxyPeers)) w.
Proof. done. Qed.

Lemma SendForwardMsg_assigned validatorAddresses code payload psp
    (w : World error PV) r ph' :
  GetValidatorAssignments validatorAddresses (ph (engine w)) = (r, ph') →
  let w1 := {| engine := {| ph := ph'; backend := backend (engine w) |};
               trace := trace w ++
                 [GetValidatorAssignmentsCall validatorAddresses] |} in
  send None validatorAddresses code payload psp w =
  match r with
  | inl err => (Some err, w1)
  | inr valAssignments =>
      let m := foldl assignStep ∅ (rangeAssignments valAssignments) in
      if decide (size m = 0) then (None, w1)
      else loop code payload psp (rangeProxies m) w1
  end.
Proof.
  intros HG. simpl.
  unfold SendForwardMsg, bind, ph_GetValidatorAssignments, call.
  rewrite HG. destruct r as [err|valAssignments]; [done|].
  by case_decide.
Qed.

Lemma elem_of_range {K V} `{Countable K} (range : gmap K V → list (K * V))
    (m : gmap K V) (k : K) (v : V) :
  range_ok range → (k, v) ∈ range m ↔ m !! k = Some v.
Proof. intros Hok. by rewrite (Hok m), elem_of_map_to_list. Qed.

(** *** The claims about [SendForwardMsg] *)

(** C2, as the code has it (partial-send tolerance).  When the encoders
    do not fail, a call that reaches the loop returns a nil error and
    has transmitted to every proxy of the map that has a payload,
    whatever the transmissions reported: the outcome of a transmission
    is not returned and does not keep the loop from the other
    proxies. *)
Theorem SendForwardMsg_transmits_to_every_proxy
    proxyPeers validatorAddresses code payload psp (w : World error PV) m :
  (∀ fwdMessage, ∃ b, EncodeToBytes fwdMessage = inr b) →
  (∀ msg, ∃ b, Payload msg = inr b) →
  range_ok rangeProxies →
  relays proxyPeers validatorAddresses w = Some m →
  (send proxyPeers validatorAddresses code payload psp w).1 = None ∧
  ∀ proxyPeer msg,
    is_Some (m !! proxyPeer) →
    msgToForward payload psp proxyPeer = Some msg →
    ∃ fwdMsgPayload outcome,
      UnicastCall proxyPeer fwdMsgPayload FwdMsg outcome ∈
        drop (length (trace w))
          (trace (send proxyPeers validatorAddresses code payload psp w).2).
Proof.
  intros Henc Hpay Hrange Hm.
  destruct proxyPeers as [proxyPeers|]; simpl in Hm.
  - injection Hm as <-. rewrite SendForwardMsg_given.
    destruct (sendLoop_complete code payload psp
                (rangeProxies (foldl peerStep ∅ proxyPeers)) w Henc Hpay)
      as [Hr Hall].
    split; [done|]. intros p msg [addrs Hp] Hmsg.
    apply (Hall p addrs msg); [| done].
    by apply elem_of_range.
  - destruct (GetValidatorAssignments _ _) as [[err|va] ph'] eqn:HG; [done|].
    injection Hm as <-.
    rewrite (SendForwardMsg_assigned _ _ _ _ _ _ _ HG). cbv zeta.
    case_decide as Hsize.
    + split; [done|]. intros p msg [addrs Hp] Hmsg.
      apply map_size_empty_iff in Hsize. rewrite Hsize in Hp.
      by rewrite lookup_empty in Hp.
    + match goal with
      | |- context [loop _ _ _ ?es ?w1] =>
          destruct (sendLoop_complete code payload psp es w1 Henc Hpay)
            as [Hr Hall];
          destruct (sendLoop_sound code payload psp es w1)
            as (evs & Htrace & _ & _)
      end.
      split; [done|]. intros p msg [addrs Hp] Hmsg.
      destruct (Hall p addrs msg) as (b & o & Hev);
        [ by apply elem_of_range | done |].
      exists b, o. rewrite Htrace in Hev |- *. simpl in *.
      rewrite drop_app_length in Hev.
      rewrite <- app_assoc, drop_app_length. by right.
Qed.

(** C7 (unassigned addresses).  With a nil list of proxy peers and the
    assignments retrieved, every transmission carries, to a connected
    proxy, addresses that resolve to that proxy only: an address without
    a proxy, or whose proxy is not connected, is in no forward message.
    Such an address is no error: an error of the call is an error of an
    encoder.  When no address resolves to a connected proxy the call
    returns a nil error and transmits nothing. *)
Theorem SendForwardMsg_unassigned_omitted
    validatorAddresses code payload psp (w : World error PV)
    valAssignments ph' :
  range_ok rangeAssignments →
  range_ok rangeProxies →
  GetValidatorAssignments validatorAddresses (ph (engine w)) =
    (inr valAssignments, ph') →
  let result := send None validatorAddresses code payload psp w in
  ∃ evs,
    trace result.2 =
      trace w ++ GetValidatorAssignmentsCall validatorAddresses :: evs ∧
    Forall
      (fun ev =>
         ∃ proxyPeer fwdMessage,
           carries ev proxyPeer fwdMessage ∧
           ∀ a, a ∈ istanbul.ForwardMessage.DestAddresses fwdMessage →
                resolvesTo valAssignments a proxyPeer) evs ∧
    (∀ err, result.1 = Some err →
            (∃ m, EncodeToBytes m = inl err) ∨ (∃ m, Payload m = inl err)) ∧
    ((∀ a proxyPeer, ¬ resolvesTo valAssignments a proxyPeer) →
     result.1 = None ∧ evs = []).
Proof.
  intros HrangeA HrangeP HG. cbv zeta.
  rewrite (SendForwardMsg_assigned _ _ _ _ _ _ _ HG). cbv zeta.
  set (m := foldl assignStep ∅ (rangeAssignments valAssignments)).
  assert (Hm : ∀ p addrs a, m !! p = Some addrs → a ∈ addrs →
               resolvesTo valAssignments a p).
  { intros p addrs a Hp Ha.
    destruct (foldl_assignStep_lookup
                (rangeAssignments valAssignments) ∅ p a) as [Hin|Hin].
    - fold m. by rewrite Hp.
    - rewrite lookup_empty in Hin. by apply elem_of_nil in Hin.
    - destruct Hin as (proxy & Hin & Hpeer). exists proxy.
      split; [| done]. by apply (elem_of_range rangeAssignments). }
  assert (Hempty : (∀ a p, ¬ resolvesTo valAssignments a p) → m = ∅).
  { intros Hnone. subst m. apply foldl_assignStep_unpeered.
    intros a proxy Hin%(elem_of_range rangeAssignments); [|done].
    destruct (peer proxy) as [p|] eqn:Hpeer; [|done].
    destruct (Hnone a p). by exists proxy. }
  case_decide as Hsize.
  - exists []. simpl. split_and!; [done | by constructor | done | done].
  - match goal with
    | |- context [loop _ _ _ ?es ?w1] =>
        destruct (sendLoop_sound code payload psp es w1)
          as (evs & Htrace & _ & Hevs);
        pose proof (sendLoop_error code payload psp es w1) as Herr
    end.
    exists evs. split_and!.
    + rewrite Htrace. simpl. by rewrite <- app_assoc.
    + eapply Forall_impl; [done|].
      intros ev (p & addrs & msg & Hin & _ & Hev).
      eexists p, _. split; [done|]. simpl. intros a Ha.
      apply (Hm p addrs); [| done].
      by apply (elem_of_range rangeProxies).
    + done.
    + intros Hnone. destruct Hsize.
      rewrite (Hempty Hnone). apply map_size_empty.
Qed.

(** C9 (payload per proxy).  Every transmission of a call carries, as
    the message of the forward message, the payload that
    [proxySpecificPayloads] holds for the node ID of the proxy when it
    holds one, and the payload argument otherwise. *)
Theorem SendForwardMsg_payload
    proxyPeers validatorAddresses code payload psp (w : World error PV) :
  let result := send proxyPeers validatorAddresses code payload psp w in
  ∃ evs,
    trace result.2 = trace w ++ evs ∧
    Forall
      (fun ev =>
         is_Unicast ev = true →
         ∃ proxyPeer fwdMessage,
           carries ev proxyPeer fwdMessage ∧
           let msg := Some (istanbul.ForwardMessage.Msg fwdMessage) in
           match psp !! enode.ID_of (consensus.Node proxyPeer) with
           | Some proxySpecificPayload => msg = proxySpecificPayload
           | None => msg = payload
           end) evs.
Proof.
  cbv zeta.
  assert (Hloop : ∀ es (w1 : World error PV) evs,
    Forall (sentFor code payload psp es) evs →
    Forall
      (fun ev =>
         is_Unicast ev = true →
         ∃ proxyPeer fwdMessage,
           carries ev proxyPeer fwdMessage ∧
           match psp !! enode.ID_of (consensus.Node proxyPeer) with
           | Some proxySpecificPayload =>
               Some (istanbul.ForwardMessage.Msg fwdMessage) =
               proxySpecificPayload
           | None => Some (istanbul.ForwardMessage.Msg fwdMessage) = payload
           end) evs).
  { intros es w1 evs Hevs. eapply Forall_impl; [done|].
    intros ev (p & addrs & msg & _ & Hmsg & Hev) _.
    eexists p, _. split; [done|]. simpl.
    unfold msgToForward in Hmsg. by destruct (psp !! _). }
  destruct proxyPeers as [proxyPeers|].
  - rewrite SendForwardMsg_given.
    destruct (sendLoop_sound code payload psp
                (rangeProxies (foldl peerStep ∅ proxyPeers)) w)
      as (evs & Htrace & _ & Hevs).
    exists evs. split; [done|]. by eapply Hloop.
  - destruct (GetValidatorAssignments validatorAddresses (ph (engine w)))
      as [r ph'] eqn:HG.
    rewrite (SendForwardMsg_assigned _ _ _ _ _ _ _ HG). cbv zeta.
    destruct r as [err|va].
    { eexists [_]. split; [done|]. by repeat constructor. }
    case_decide.
    { eexists [_]. split; [done|]. by repeat constructor. }
    match goal with
    | |- context [loop _ _ _ ?es ?w1] =>
        destruct (sendLoop_sound code payload psp es w1)
          as (evs & Htrace & _ & Hevs)
    end.
    eexists (_ :: evs). split.
    + rewrite Htrace. simpl. by rewrite <- app_assoc.
    + constructor; [done|]. by eapply Hloop.
Qed.

(** C10 (explicit proxy peers).  With a list of proxy peers that is not
    nil, whatever the validator addresses are, the proxy handler is not
    called and keeps its state, and every call is a transmission to one
    of the listed peers of a forward message with no destination
    address. *)
Theorem SendForwardMsg_explicit_proxies
    proxyPeers validatorAddresses code payload psp (w : World error PV) :
  range_ok rangeProxies →
  let result := send (Some proxyPeers) validatorAddresses code payload psp w in
  (∀ validatorAddresses',
     send (Some proxyPeers) validatorAddresses' code payload psp w = result) ∧
  ph (engine result.2) = ph (engine w) ∧
  ∃ evs,
    trace result.2 = trace w ++ evs ∧
    Forall
      (fun ev =>
         is_GetValidatorAssignments ev = false ∧
         ∃ proxyPeer fwdMessage,
           proxyPeer ∈ proxyPeers ∧
           carries ev proxyPeer fwdMessage ∧
           istanbul.ForwardMessage.DestAddresses fwdMessage = []) evs.
Proof.
  intros Hrange. cbv zeta. split; [done|].
  rewrite SendForwardMsg_given.
  destruct (sendLoop_sound code payload psp
              (rangeProxies (foldl peerStep ∅ proxyPeers)) w)
    as (evs & Htrace & Hph & Hevs).
  split; [done|]. exists evs. split; [done|].
  eapply Forall_impl; [done|].
  intros ev (p & addrs & msg & Hin & _ & Hev).
  apply (elem_of_range rangeProxies) in Hin; [|done].
  rewrite foldl_peerStep_lookup in Hin.
  case_decide as Hp; [| by rewrite lookup_empty in Hin].
  injection Hin as <-. split.
  - by destruct Hev as (? & ? & ? & ? & _ & _ & ->).
  - by eexists p, _.
Qed.
End ProxiedValidatorEngineProperties.

(** ** The claims on the deployment with two proxies *)

Section ScenarioFacts.
Import Scenario.

Lemma range_ok_map_to_list {K V} `{Countable K} :
  range_ok (map_to_list (K := K) (A := V) (M := gmap K V)).
Proof. intros m. reflexivity. Defined.

Lemma V_isProxiedValidator : isProxiedValidator (engine p0) V.
Proof. exists V. split; reflexivity. Defined.

Lemma encoders_total :
  (∀ m, ∃ b, EncodeToBytes m = inr b) ∧ (∀ m, ∃ b, Payload m = inr b).
Proof. split; intros m; eexists; reflexivity. Defined.
End ScenarioFacts.

Lemma handleForwardMsg_not_from_proxied_validator_witness :
  Scenario.handleForwardMsg None Scenario.X
    (Scenario.forwarded 7 [Scenario.A] Scenario.P) Scenario.p0 =
  ((false, None), Scenario.p0) ∧
  Scenario.handleForwardMsg None Scenario.V
    (Scenario.forwarded 7 [Scenario.A] Scenario.P) Scenario.p_unregistered =
  ((false, None), Scenario.p_unregistered).
Proof.
  split.
  - apply handleForwardMsg_not_from_proxied_validator.
    right. exists Scenario.V. split; [reflexivity|]. vm_compute. discriminate.
  - apply handleForwardMsg_not_from_proxied_validator.
    left. reflexivity.
Defined.

(** The payload is the forward message of the scenario. *)
Ltac decodes := eexists; split; vm_compute; reflexivity.

Lemma handleForwardMsg_handled_witness :
  ∃ err w',
    Scenario.handleForwardMsg None Scenario.V
      (Scenario.forwarded 7 [Scenario.A] Scenario.P) Scenario.p0 =
    ((true, err), w') ∧
    (err = None ↔
     ∃ fwdMsg w1,
       Scenario.Decode (Scenario.forwarding 7 [Scenario.A] Scenario.P) =
         inr fwdMsg ∧
       enodeCertificateStep Scenario.EnodeCertificateMsg
         Scenario.handleEnodeCertificateFromFwdMsg_impl fwdMsg Scenario.p0 =
         (None, w1) ∧
       Multicast (Scenario.backend_Multicast None)
         (istanbul.ForwardMessage.DestAddresses fwdMsg)
         (istanbul.ForwardMessage.Msg fwdMsg)
         (istanbul.ForwardMessage.Code fwdMsg) false w1 = (None, w')).
Proof.
  apply (handleForwardMsg_handled Scenario.EnodeCertificateMsg
           Scenario.FromPayload Scenario.Decode
           Scenario.handleEnodeCertificateFromFwdMsg_impl
           (Scenario.backend_Multicast None) Scenario.V
           (Scenario.forwarded 7 [Scenario.A] Scenario.P)
           (Scenario.forwarding 7 [Scenario.A] Scenario.P) Scenario.p0).
  - exact V_isProxiedValidator.
  - vm_compute. reflexivity.
Defined.

Lemma handleForwardMsg_multicast_witness :
  Scenario.handleForwardMsg None Scenario.V
    (Scenario.forwarded 7 [Scenario.A] Scenario.P) Scenario.p0 =
  ((true, None),
   {| engine := {| proxiedValidator := Some Scenario.V;
                   p_backend := [([Scenario.A], Scenario.P, 7%N)] |};
      trace := [MulticastCall [Scenario.A] Scenario.P 7 false None] |}) ∧
  Scenario.handleForwardMsg (Some "write: broken pipe"%string) Scenario.V
    (Scenario.forwarded 7 [Scenario.A] Scenario.P) Scenario.p0 =
  ((true, Some "write: broken pipe"%string),
   {| engine := {| proxiedValidator := Some Scenario.V; p_backend := [] |};
      trace := [MulticastCall [Scenario.A] Scenario.P 7 false
                  (Some "write: broken pipe"%string)] |}).
Proof.
  split.
  - refine (proj1 (handleForwardMsg_multicast Scenario.EnodeCertificateMsg
             Scenario.FromPayload Scenario.Decode
             Scenario.handleEnodeCertificateFromFwdMsg_impl
             (Scenario.backend_Multicast None) Scenario.V
             (Scenario.forwarded 7 [Scenario.A] Scenario.P)
             {| istanbul.ForwardMessage.Code := 7;
                istanbul.ForwardMessage.DestAddresses := [Scenario.A];
                istanbul.ForwardMessage.Msg := Scenario.P |}
             Scenario.p0 Scenario.p0 V_isProxiedValidator _ _));
      [ decodes | reflexivity ].
  - refine (proj1 (handleForwardMsg_multicast Scenario.EnodeCertificateMsg
             Scenario.FromPayload Scenario.Decode
             Scenario.handleEnodeCertificateFromFwdMsg_impl
             (Scenario.backend_Multicast (Some "write: broken pipe"%string))
             Scenario.V
             (Scenario.forwarded 7 [Scenario.A] Scenario.P)
             {| istanbul.ForwardMessage.Code := 7;
                istanbul.ForwardMessage.DestAddresses := [Scenario.A];
                istanbul.ForwardMessage.Msg := Scenario.P |}
             Scenario.p0 Scenario.p0 V_isProxiedValidator _ _));
      [ decodes | reflexivity ].
Defined.

Lemma handleForwardMsg_decode_error_witness :
  Scenario.handleForwardMsg None Scenario.V [x01; x02] Scenario.p0 =
  ((true, Some "rlp: expected List"%string), Scenario.p0).
Proof.
  apply handleForwardMsg_decode_error.
  - exact V_isProxiedValidator.
  - left. vm_compute. reflexivity.
Defined.

Lemma handleForwardMsg_enode_certificate_witness :
  ∃ res w',
    Scenario.handleForwardMsg None Scenario.V
      (Scenario.forwarded Scenario.EnodeCertificateMsg [Scenario.A] Scenario.P)
      Scenario.p0 = (res, w') ∧
    res = (true, Some "invalid enode certificate"%string) ∧
    w' = {| engine := engine Scenario.p0;
            trace := [HandleEnodeCertificateCall Scenario.P
                        (Some "invalid enode certificate"%string)] |}.
Proof.
  refine (handleForwardMsg_enode_certificate Scenario.EnodeCertificateMsg
            Scenario.FromPayload Scenario.Decode
            Scenario.handleEnodeCertificateFromFwdMsg_impl
            (Scenario.backend_Multicast None) Scenario.V
            (Scenario.forwarded Scenario.EnodeCertificateMsg
               [Scenario.A] Scenario.P)
            {| istanbul.ForwardMessage.Code := Scenario.EnodeCertificateMsg;
               istanbul.ForwardMessage.DestAddresses := [Scenario.A];
               istanbul.ForwardMessage.Msg := Scenario.P |}
            Scenario.p0 V_isProxiedValidator _ _);
    [ decodes | reflexivity ].
Defined.

Lemma SendForwardMsg_transmits_to_every_proxy_witness :
  (Scenario.SendForwardMsg [Scenario.R1] (Some [Scenario.R1; Scenario.R2]) []
     7 (Some Scenario.P) ∅ Scenario.pv0).1 = None ∧
  ∀ proxyPeer msg,
    is_Some (foldl peerStep ∅ [Scenario.R1; Scenario.R2] !! proxyPeer) →
    msgToForward (Some Scenario.P) ∅ proxyPeer = Some msg →
    ∃ fwdMsgPayload outcome,
      UnicastCall proxyPeer fwdMsgPayload Scenario.FwdMsg outcome ∈
        drop (length (trace Scenario.pv0))
          (trace (Scenario.SendForwardMsg [Scenario.R1]
                    (Some [Scenario.R1; Scenario.R2]) []
                    7 (Some Scenario.P) ∅ Scenario.pv0).2).
Proof.
  apply (SendForwardMsg_transmits_to_every_proxy Scenario.FwdMsg
           Scenario.GetValidatorAssignments Scenario.backend_Address
           (Scenario.backend_Unicast [Scenario.R1])
           Scenario.EncodeToBytes Scenario.Payload map_to_list map_to_list).
  - apply encoders_total.
  - apply encoders_total.
  - apply range_ok_map_to_list.
  - reflexivity.
Defined.

Lemma SendForwardMsg_unassigned_omitted_witness :
  ∃ evs,
    trace (Scenario.SendForwardMsg [] None [Scenario.A; Scenario.C]
             7 (Some Scenario.P) ∅ Scenario.pv0).2 =
      trace Scenario.pv0 ++
      GetValidatorAssignmentsCall [Scenario.A; Scenario.C] :: evs ∧
    Forall
      (fun ev =>
         ∃ proxyPeer fwdMessage,
           carries Scenario.FwdMsg Scenario.EncodeToBytes Scenario.Payload
             ev proxyPeer fwdMessage ∧
           ∀ a, a ∈ istanbul.ForwardMessage.DestAddresses fwdMessage →
                resolvesTo Scenario.assignments_AC a proxyPeer) evs ∧
    (∀ err,
       (Scenario.SendForwardMsg [] None [Scenario.A; Scenario.C]
          7 (Some Scenario.P) ∅ Scenario.pv0).1 = Some err →
       (∃ m, Scenario.EncodeToBytes m = inl err) ∨
       (∃ m, Scenario.Payload m = inl err)) ∧
    ((∀ a proxyPeer, ¬ resolvesTo Scenario.assignments_AC a proxyPeer) →
     (Scenario.SendForwardMsg [] None [Scenario.A; Scenario.C]
        7 (Some Scenario.P) ∅ Scenario.pv0).1 = None ∧ evs = []).
Proof.
  apply (SendForwardMsg_unassigned_omitted Scenario.FwdMsg
           Scenario.GetValidatorAssignments Scenario.backend_Address
           (Scenario.backend_Unicast [])
           Scenario.EncodeToBytes Scenario.Payload map_to_list map_to_list
           [Scenario.A; Scenario.C] 7 (Some Scenario.P) ∅ Scenario.pv0
           Scenario.assignments_AC (ph (engine Scenario.pv0))).
  - apply range_ok_map_to_list.
  - apply range_ok_map_to_list.
  - reflexivity.
Defined.

Lemma SendForwardMsg_explicit_proxies_witness :
  let result :=
    Scenario.SendForwardMsg [] (Some [Scenario.R1; Scenario.R2]) [Scenario.A]
      7 (Some Scenario.P) ∅ Scenario.pv0 in
  (∀ validatorAddresses',
     Scenario.SendForwardMsg [] (Some [Scenario.R1; Scenario.R2])
       validatorAddresses' 7 (Some Scenario.P) ∅ Scenario.pv0 = result) ∧
  ph (engine result.2) = ph (engine Scenario.pv0) ∧
  ∃ evs,
    trace result.2 = trace Scenario.pv0 ++ evs ∧
    Forall
      (fun ev =>
         is_GetValidatorAssignments ev = false ∧
         ∃ proxyPeer fwdMessage,
           proxyPeer ∈ [Scenario.R1; Scenario.R2] ∧
           carries Scenario.FwdMsg Scenario.EncodeToBytes Scenario.Payload
             ev proxyPeer fwdMessage ∧
           istanbul.ForwardMessage.DestAddresses fwdMessage = []) evs.
Proof.
  apply (SendForwardMsg_explicit_proxies Scenario.FwdMsg
           Scenario.GetValidatorAssignments Scenario.backend_Address
           (Scenario.backend_Unicast [])
           Scenario.EncodeToBytes Scenario.Payload map_to_list map_to_list).
  apply range_ok_map_to_list.
Defined.

(** C2, as the design document has it, fails: the transmission to [R1]
    fails, the transmission to [R2] is made all the same, and the call
    returns a nil error, not the error of the first failed transmission. *)
Lemma SendForwardMsg_first_error_not_returned :
  let result :=
    Scenario.SendForwardMsg [Scenario.R1] (Some [Scenario.R1; Scenario.R2]) []
      7 (Some Scenario.P) ∅ Scenario.pv0 in
  firstFailure (trace result.2) = Some "write: broken pipe"%string ∧
  result.1 ≠ firstFailure (trace result.2) ∧
  UnicastCall Scenario.R2 (Scenario.forwarded 7 [] Scenario.P)
    Scenario.FwdMsg None ∈ trace result.2.
Proof.
  vm_compute. split_and!; [reflexivity | discriminate |].
  apply list_elem_of_In. vm_compute.
  repeat first [ left; reflexivity | right ].
Qed.

(** The sending side of the end-to-end scenario: the forward message for
    [A] goes to [R1], with [A] as its only destination. *)
Example SendForwardMsg_scenario :
  let result :=
    Scenario.SendForwardMsg [] None [Scenario.A] 7 (Some Scenario.P) ∅
      Scenario.pv0 in
  result.1 = None ∧
  trace result.2 =
    [GetValidatorAssignmentsCall [Scenario.A];
     UnicastCall Scenario.R1 (Scenario.forwarded 7 [Scenario.A] Scenario.P)
       Scenario.FwdMsg None].
Proof. vm_compute. split; reflexivity. Qed.

(** An address whose proxy is not connected: nothing is sent, and the
    call returns nil. *)
Example SendForwardMsg_scenario_unpeered :
  let result :=
    Scenario.SendForwardMsg [] None [Scenario.C] 7 (Some Scenario.P) ∅
      Scenario.pv0 in
  result.1 = None ∧
  trace result.2 = [GetValidatorAssignmentsCall [Scenario.C]].
Proof. vm_compute. split; reflexivity. Qed.

(** ** The enode share message of the scenario *)

Lemma DecodeRLP_EncodeRLP_witness :
  DecodeRLP {| ValEnodes := [] |} (EncodeRLP Scenario.shared) =
  inr (Scenario.shared, []).
Proof.
  apply DecodeRLP_EncodeRLP.
  - repeat constructor; vm_compute; reflexivity.
  - vm_compute. reflexivity.
Defined.

(** * Further properties *)

(** ** The receiving side, on every input *)

Section ProxyEngineCalls.
Context {error : Type} {Backend : Type}.
Variable EnodeCertificateMsg : N.
Variable FromPayload : bytes → error + istanbul.Message.t.
Variable Decode : istanbul.Message.t → error + istanbul.ForwardMessage.t.
Variable handleEnodeCertificateFromFwdMsg_impl :
  bytes → proxyEngine Backend → option error * proxyEngine Backend.
Variable backend_Multicast :
  list common.Address → bytes → N → bool → Backend → option error * Backend.

Local Abbreviation handle :=
  (handleForwardMsg EnodeCertificateMsg FromPayload Decode
     handleEnodeCertificateFromFwdMsg_impl backend_Multicast).
Local Abbreviation certificateStep :=
  (enodeCertificateStep EnodeCertificateMsg
     handleEnodeCertificateFromFwdMsg_impl).

(** The calls of the certificate step, and what it does to the
    registration when the certificate handling keeps it. *)
Lemma enodeCertificateStep_calls fwdMsg (w : World error (proxyEngine Backend)) :
  ∃ evs,
    trace (certificateStep fwdMsg w).2 = trace w ++ evs ∧
    (evs = [] ∧ (certificateStep fwdMsg w) = (None, w) ∨
     evs = [HandleEnodeCertificateCall (istanbul.ForwardMessage.Msg fwdMsg)
              (certificateStep fwdMsg w).1]).
Proof.
  rewrite enodeCertificateStep_spec.
  destruct (_ =? _)%N.
  - destruct (handleEnodeCertificateFromFwdMsg_impl _ _) as [r p'].
    eexists. split; [done|]. by right.
  - exists []. split; [by rewrite app_nil_r|]. by left.
Qed.

(** X1.  The handled flag is the outcome of the check of line 105: a
    message is reported as handled exactly when it comes from the
    registered proxied validator, whatever its payload and whatever comes
    of its decoding, of the certificate handling and of the multicast. *)
Theorem handleForwardMsg_handled_iff peer payload
    (w : World error (proxyEngine Backend)) :
  (handle peer payload w).1.1 = negb (notFromProxiedValidator (engine w) peer).
Proof.
  unfold handleForwardMsg.
  destruct (notFromProxiedValidator (engine w) peer); [done|].
  destruct (FromPayload payload) as [err|istMsg]; [done|].
  destruct (Decode istMsg) as [err|fwdMsg]; [done|].
  unfold bind.
  destruct (certificateStep fwdMsg w) as [[err|] w1]; [done|].
  by destruct (Multicast _ _ _ _ _ w1) as [[err|] w2].
Qed.

(** X2.  The calls of one [handleForwardMsg]: none; or the certificate
    handling alone, which then failed with the error that is returned; or
    one multicast, after a certificate handling that succeeded if there
    was one.  The multicast never asks to send to the proxy itself, and
    its outcome is the error returned. *)
Theorem handleForwardMsg_calls peer payload
    (w : World error (proxyEngine Backend)) :
  let result := handle peer payload w in
  ∃ evs,
    trace result.2 = trace w ++ evs ∧
    (evs = [] ∧ result.2 = w ∨
     (∃ msg err,
        evs = [HandleEnodeCertificateCall msg (Some err)] ∧
        result.1 = (true, Some err)) ∨
     (∃ dest msg code r,
        (evs = [MulticastCall dest msg code false r] ∨
         evs = [HandleEnodeCertificateCall msg None;
                MulticastCall dest msg code false r]) ∧
        result.1 = (true, r))).
Proof.
  cbv zeta. unfold handleForwardMsg.
  destruct (notFromProxiedValidator (engine w) peer).
  { exists []. split; [by rewrite app_nil_r|]. by left. }
  destruct (FromPayload payload) as [err|istMsg].
  { exists []. split; [by rewrite app_nil_r|]. by left. }
  destruct (Decode istMsg) as [err|fwdMsg].
  { exists []. split; [by rewrite app_nil_r|]. by left. }
  unfold bind.
  destruct (enodeCertificateStep_calls fwdMsg w) as (evs & Htrace & Hevs).
  destruct (certificateStep fwdMsg w) as [r w1] eqn:Hstep. simpl in *.
  destruct r as [err|].
  - exists evs. split; [done|]. right. left.
    destruct Hevs as [[_ [=]]| ->]. by eexists _, _.
  - unfold Multicast, call.
    destruct (backend_Multicast _ _ _ _ _) as [r' b'] eqn:HM.
    exists (evs ++ [MulticastCall (istanbul.ForwardMessage.DestAddresses fwdMsg)
                      (istanbul.ForwardMessage.Msg fwdMsg)
                      (istanbul.ForwardMessage.Code fwdMsg) false r']).
    split.
    { destruct r'; simpl; by rewrite Htrace, <- app_assoc. }
    right. right. eexists _, _, _, r'. split.
    + destruct Hevs as [[-> _]| ->]; [by left | by right].
    + by destruct r'.
Qed.

(** X3.  A certificate handling that keeps the registration makes
    [handleForwardMsg] keep it: the proxied validator that is registered
    before a message is the one registered after it. *)
Theorem handleForwardMsg_keeps_registration peer payload
    (w : World error (proxyEngine Backend)) :
  (∀ msg p,
     proxiedValidator (handleEnodeCertificateFromFwdMsg_impl msg p).2 =
     proxiedValidator p) →
  proxiedValidator (engine (handle peer payload w).2) =
  proxiedValidator (engine w).
Proof.
  intros Himpl. unfold handleForwardMsg.
  destruct (notFromProxiedValidator (engine w) peer); [done|].
  destruct (FromPayload payload) as [err|istMsg]; [done|].
  destruct (Decode istMsg) as [err|fwdMsg]; [done|].
  unfold bind.
  assert (Hstep : proxiedValidator (engine (certificateStep fwdMsg w).2) =
                  proxiedValidator (engine w)).
  { rewrite enodeCertificateStep_spec. destruct (_ =? _)%N; [|done].
    specialize (Himpl (istanbul.ForwardMessage.Msg fwdMsg) (engine w)).
    by destruct (handleEnodeCertificateFromFwdMsg_impl _ _). }
  destruct (certificateStep fwdMsg w) as [[err|] w1]; [done|].
  unfold Multicast, call. simpl in Hstep.
  destruct (backend_Multicast _ _ _ _ _) as [[err|] b']; done.
Qed.
End ProxyEngineCalls.

Lemma handleForwardMsg_keeps_registration_witness :
  proxiedValidator
    (engine (Scenario.handleForwardMsg None Scenario.V
               (Scenario.forwarded 7 [Scenario.A] Scenario.P) Scenario.p0).2) =
  proxiedValidator (engine Scenario.p0).
Proof.
  apply (handleForwardMsg_keeps_registration Scenario.EnodeCertificateMsg
           Scenario.FromPayload Scenario.Decode
           Scenario.handleEnodeCertificateFromFwdMsg_impl
           (Scenario.backend_Multicast None)).
  intros msg p. unfold Scenario.handleEnodeCertificateFromFwdMsg_impl.
  destruct (Scenario.FromPayload msg); reflexivity.
Defined.

(** ** The sending side, on every input *)

Section ProxiedValidatorEngineCalls.
Context {error : Type} {ProxyHandler Backend : Type}.
Variable FwdMsg : N.
Variable GetValidatorAssignments :
  list common.Address → ProxyHandler →
  (error + gmap common.Address (option proxy)) * ProxyHandler.
Variable backend_Address : Backend → common.Address.
Variable backend_Unicast :
  consensus.Peer → bytes → N → Backend → option error * Backend.
Variable EncodeToBytes : istanbul.ForwardMessage.t → error + bytes.
Variable Payload : istanbul.Message.t → error + bytes.
Variable rangeAssignments :
  gmap common.Address (option proxy) → list (common.Address * option proxy).
Variable rangeProxies :
  gmap consensus.Peer (list common.Address) →
  list (consensus.Peer * list common.Address).

Local Abbreviation PV := (proxiedValidatorEngine ProxyHandler Backend).
Local Abbreviation send :=
  (SendForwardMsg FwdMsg GetValidatorAssignments backend_Address
     backend_Unicast EncodeToBytes Payload rangeAssignments rangeProxies).
Local Abbreviation loop :=
  (sendLoop FwdMsg backend_Address backend_Unicast EncodeToBytes Payload).
Local Abbreviation relaysOf :=
  (relays GetValidatorAssignments rangeAssignments).

Local Abbreviation encodingFails :=
  (encodingFails FwdMsg EncodeToBytes Payload).

Lemma recipients_cons p b c o (evs : list (Event error)) :
  recipients (UnicastCall p b c o :: evs) = p :: recipients evs.
Proof. done. Qed.

Lemma withPayload_cons payload psp p addrs es :
  withPayload payload psp ((p, addrs) :: es) =
  match msgToForward payload psp p with
  | Some _ => (p, addrs) :: withPayload payload psp es
  | None => withPayload payload psp es
  end.
Proof.
  unfold withPayload. rewrite filter_cons. simpl.
  destruct (msgToForward payload psp p) as [msg|].
  - rewrite decide_True; [done | by eexists].
  - rewrite decide_False; [done | by intros [? [=]]].
Qed.

(** The loop, entry by entry: it transmits, with the code [FwdMsg], to
    the entries that have a payload, in their order, up to the end or to
    the first entry at which an encoder fails. *)
Lemma sendLoop_recipients code payload psp es (w : World error PV) :
  ∃ evs,
    trace (loop code payload psp es w).2 = trace w ++ evs ∧
    Forall (fun ev => ∃ p b o, ev = UnicastCall p b FwdMsg o) evs ∧
    match (loop code payload psp es w).1 with
    | None => recipients evs = (withPayload payload psp es).*1
    | Some err =>
        ∃ es1 p addrs es2 msg,
          es = es1 ++ (p, addrs) :: es2 ∧
          msgToForward payload psp p = Some msg ∧
          encodingFails
            {| istanbul.ForwardMessage.Code := code;
               istanbul.ForwardMessage.DestAddresses := addrs;
               istanbul.ForwardMessage.Msg := msg |} err ∧
          recipients evs = (withPayload payload psp es1).*1
    end.
Proof.
  revert w. induction es as [|[p addrs] rest IH]; intros w.
  { exists []. simpl. by rewrite app_nil_r. }
  simpl. rewrite withPayload_cons.
  destruct (msgToForward payload psp p) as [msg|] eqn:Hmsg.
  - destruct (EncodeToBytes _) as [err|fwdMsgBytes] eqn:Henc.
    { exists []. simpl. rewrite app_nil_r. split_and!; [done..|].
      exists [], p, addrs, rest, msg. split_and!; [done | done | by left | done]. }
    destruct (Payload _) as [err|fwdMsgPayload] eqn:Hpay.
    { exists []. simpl. rewrite app_nil_r. split_and!; [done..|].
      exists [], p, addrs, rest, msg. split_and!; [done | done | | done].
      right. by eexists _, _. }
    unfold bind, Unicast, call.
    destruct (backend_Unicast _ _ _ _) as [outcome b'].
    match goal with
    | |- context [loop _ _ _ rest ?w1] =>
        destruct (IH w1) as (evs & Htrace & Hevs & Hres)
    end.
    exists (UnicastCall p fwdMsgPayload FwdMsg outcome :: evs).
    split_and!.
    + rewrite Htrace. simpl. by rewrite <- app_assoc.
    + constructor; [by eexists _, _, _ | done].
    + destruct (loop _ _ _ rest _).1 as [err|].
      * destruct Hres as (es1 & p' & addrs' & es2 & msg' & -> & ? & ? & Hrec).
        exists ((p, addrs) :: es1), p', addrs', es2, msg'.
        split_and!; [done..|].
        by rewrite withPayload_cons, Hmsg, recipients_cons, Hrec.
      * by rewrite recipients_cons, Hres.
  - destruct (IH w) as (evs & Htrace & Hevs & Hres).
    exists evs. split_and!; [done..|].
    destruct (loop _ _ _ rest _).1 as [err|]; [|done].
    destruct Hres as (es1 & p' & addrs' & es2 & msg' & -> & ? & ? & Hrec).
    exists ((p, addrs) :: es1), p', addrs', es2, msg'.
    split_and!; [done..|].
    by rewrite withPayload_cons, Hmsg.
Qed.

Lemma range_NoDup (m : gmap consensus.Peer (list common.Address)) :
  range_ok rangeProxies → NoDup (rangeProxies m).*1.
Proof. intros Hok. rewrite (Hok m). apply NoDup_fst_map_to_list. Qed.

Lemma withPayload_sublist payload psp es :
  (withPayload payload psp es).*1 `sublist_of` es.*1.
Proof. unfold withPayload. apply fmap_sublist, sublist_filter. Qed.

Lemma newEvents_app {St} (w w' : World error St) evs :
  trace w' = trace w ++ evs → newEvents w w' = evs.
Proof. unfold newEvents. intros ->. apply drop_app_length. Qed.

(** A call is the call of the proxy handler, when the proxy peers are
    nil, and then, unless the assignments cannot be retrieved, the loop on
    the entries of the map (on no entry when the map is empty). *)
Lemma SendForwardMsg_view proxyPeers validatorAddresses code payload psp
    (w : World error PV) :
  let result := send proxyPeers validatorAddresses code payload psp w in
  (relaysOf proxyPeers validatorAddresses w = None ∧
   trace result.2 = trace w ++ firstCall proxyPeers validatorAddresses ∧
   is_Some result.1) ∨
  ∃ m es w1,
    relaysOf proxyPeers validatorAddresses w = Some m ∧
    (es = rangeProxies m ∨ m = ∅ ∧ es = []) ∧
    trace w1 = trace w ++ firstCall proxyPeers validatorAddresses ∧
    result = loop code payload psp es w1.
Proof.
  cbv zeta. unfold relays, firstCall. destruct proxyPeers as [proxyPeers|].
  - right. eexists _, _, w. split_and!; [done | by left | | done].
    by rewrite app_nil_r.
  - destruct (GetValidatorAssignments validatorAddresses (ph (engine w)))
      as [r ph'] eqn:HG.
    rewrite (SendForwardMsg_assigned _ _ _ _ _ _ _ _ _ _ _ _ _ _ _ HG).
    cbv zeta. destruct r as [err|va].
    { left. split_and!; [done | done | by eexists]. }
    right. case_decide as Hsize.
    + apply map_size_empty_iff in Hsize.
      eexists _, [], _. split_and!; [done | by right | | done]. done.
    + eexists _, _, _. split_and!; [done | by left | | done]. done.
Qed.

(** *** Further facts about [SendForwardMsg] *)

(** X4.  When the assignments cannot be retrieved, [SendForwardMsg]
    returns the error of the proxy handler and transmits nothing,
    whatever the payload and the specific payloads are. *)
Theorem SendForwardMsg_assignments_error
    validatorAddresses code payload psp (w : World error PV) err ph' :
  GetValidatorAssignments validatorAddresses (ph (engine w)) = (inl err, ph') →
  let result := send None validatorAddresses code payload psp w in
  result.1 = Some err ∧
  newEvents w result.2 = [GetValidatorAssignmentsCall validatorAddresses] ∧
  backend (engine result.2) = backend (engine w).
Proof.
  intros HG. cbv zeta.
  rewrite (SendForwardMsg_assigned _ _ _ _ _ _ _ _ _ _ _ _ _ _ _ HG).
  split_and!; [done | | done]. by apply newEvents_app.
Qed.

(** X5.  The calls of [SendForwardMsg], whatever its arguments: the
    proxy handler first, and exactly when the proxy peers are nil; after
    it nothing but transmissions with the message code [FwdMsg]. *)
Theorem SendForwardMsg_calls
    proxyPeers validatorAddresses code payload psp (w : World error PV) :
  let result := send proxyPeers validatorAddresses code payload psp w in
  ∃ evs,
    trace result.2 =
      trace w ++ firstCall proxyPeers validatorAddresses ++ evs ∧
    Forall (fun ev => ∃ p b o, ev = UnicastCall p b FwdMsg o) evs.
Proof.
  cbv zeta.
  destruct (SendForwardMsg_view proxyPeers validatorAddresses code payload
              psp w) as [(_ & Htrace & _)|(m & es & w1 & _ & _ & Hw1 & ->)].
  - exists []. by rewrite app_nil_r.
  - destruct (sendLoop_recipients code payload psp es w1)
      as (evs & Htrace & Hevs & _).
    exists evs. split; [| done].
    by rewrite Htrace, Hw1, <- app_assoc.
Qed.

Lemma recipients_first proxyPeers validatorAddresses (evs : list (Event error)) :
  recipients (firstCall proxyPeers validatorAddresses ++ evs) = recipients evs.
Proof. by destruct proxyPeers. Qed.

(** The recipients of a call are entries with a payload, in their order,
    of the entries that the loop goes through. *)
Lemma SendForwardMsg_recipients
    proxyPeers validatorAddresses code payload psp (w : World error PV) :
  let result := send proxyPeers validatorAddresses code payload psp w in
  recipients (newEvents w result.2) = [] ∨
  ∃ m es,
    relaysOf proxyPeers validatorAddresses w = Some m ∧
    es `prefix_of` rangeProxies m ∧
    recipients (newEvents w result.2) = (withPayload payload psp es).*1.
Proof.
  cbv zeta.
  destruct (SendForwardMsg_view proxyPeers validatorAddresses code payload
              psp w) as [(_ & Htrace & _)|(m & es & w1 & Hm & Hes & Hw1 & ->)].
  - left. rewrite (newEvents_app _ _ _ Htrace).
    by rewrite <- (app_nil_r (firstCall _ _)), recipients_first.
  - destruct (sendLoop_recipients code payload psp es w1)
      as (evs & Htrace & _ & Hres).
    rewrite Hw1, <- app_assoc in Htrace.
    rewrite (newEvents_app _ _ _ Htrace), recipients_first.
    destruct Hes as [->|[-> ->]].
    + right. exists m.
      destruct (loop _ _ _ _ _).1 as [err|].
      * destruct Hres as (es1 & p & addrs & es2 & msg & Hes & _ & _ & Hrec).
        exists es1. split_and!; [done | | done].
        rewrite Hes. by eexists.
      * by exists (rangeProxies m).
    + left. by rewrite Hres.
Qed.

(** X6.  A proxy without a payload is not transmitted to: when the
    specific payloads hold nil for the node ID of a proxy, or hold
    nothing for it while the payload is nil, no transmission of the call
    goes to that proxy. *)
Theorem SendForwardMsg_no_payload
    proxyPeers validatorAddresses code payload psp (w : World error PV)
    proxyPeer :
  msgToForward payload psp proxyPeer = None →
  proxyPeer ∉
    recipients
      (newEvents w (send proxyPeers validatorAddresses code payload psp w).2).
Proof.
  intros Hnone.
  destruct (SendForwardMsg_recipients proxyPeers validatorAddresses code
              payload psp w) as [->|(m & es & _ & _ & ->)].
  - apply not_elem_of_nil.
  - intros ((p & addrs) & -> & Hin)%list_elem_of_fmap.
    unfold withPayload in Hin. apply list_elem_of_filter in Hin as [Hsome _].
    simpl in *. rewrite Hnone in Hsome. by destruct Hsome.
Qed.

(** X7.  A call transmits at most once to a proxy: the recipients of its
    transmissions are pairwise distinct, also when a peer is listed more
    than once or serves several addresses. *)
Theorem SendForwardMsg_one_transmission_per_proxy
    proxyPeers validatorAddresses code payload psp (w : World error PV) :
  range_ok rangeProxies →
  NoDup
    (recipients
       (newEvents w (send proxyPeers validatorAddresses code payload psp w).2)).
Proof.
  intros Hrange.
  destruct (SendForwardMsg_recipients proxyPeers validatorAddresses code
              payload psp w) as [->|(m & es & _ & Hes & ->)].
  - apply NoDup_nil_2.
  - eapply sublist_NoDup; [by apply (range_NoDup m) |].
    etrans; [apply withPayload_sublist|].
    destruct Hes as [k ->]. rewrite fmap_app. by apply sublist_inserts_r.
Qed.

(** X8.  An error that comes from the loop means that a proxy was left
    out: there is a proxy in the map, with a payload, at which an encoder
    failed with that error, and no transmission of the call goes to
    it. *)
Theorem SendForwardMsg_error_skips_proxy
    proxyPeers validatorAddresses code payload psp (w : World error PV) m err :
  range_ok rangeProxies →
  relaysOf proxyPeers validatorAddresses w = Some m →
  (send proxyPeers validatorAddresses code payload psp w).1 = Some err →
  ∃ proxyPeer valAddresses msg,
    m !! proxyPeer = Some valAddresses ∧
    msgToForward payload psp proxyPeer = Some msg ∧
    encodingFails
      {| istanbul.ForwardMessage.Code := code;
         istanbul.ForwardMessage.DestAddresses := valAddresses;
         istanbul.ForwardMessage.Msg := msg |} err ∧
    proxyPeer ∉
      recipients
        (newEvents w
           (send proxyPeers validatorAddresses code payload psp w).2).
Proof.
  intros Hrange Hm Herr.
  destruct (SendForwardMsg_view proxyPeers validatorAddresses code payload
              psp w) as [(Hnone & _)|(m' & es & w1 & Hm' & Hes & Hw1 & Hsend)].
  { by rewrite Hm in Hnone. }
  rewrite Hm in Hm'. injection Hm' as <-.
  rewrite Hsend in Herr |- *.
  destruct (sendLoop_recipients code payload psp es w1)
    as (evs & Htrace & _ & Hres).
  rewrite Herr in Hres.
  destruct Hres as (es1 & p & addrs & es2 & msg & Hsplit & Hmsg & Hfail & Hrec).
  destruct Hes as [->|[_ ->]]; [| by destruct es1].
  exists p, addrs, msg. split_and!; [| done | done |].
  - apply (elem_of_range rangeProxies); [done|].
    rewrite Hsplit. apply elem_of_app. right. by left.
  - rewrite Hw1, <- app_assoc in Htrace.
    rewrite (newEvents_app _ _ _ Htrace), recipients_first, Hrec.
    pose proof (range_NoDup m Hrange) as Hnodup.
    rewrite Hsplit, fmap_app, fmap_cons in Hnodup.
    apply NoDup_app in Hnodup as (_ & Hdisj & _).
    intros Hin. apply (Hdisj p); [| by left].
    eapply elem_of_sublist; [done | apply withPayload_sublist].
Qed.

(** X9.  With a list of proxy peers that is empty and not nil, the call
    does nothing and returns nil: no proxy handler, no transmission, the
    engine as it was. *)
Theorem SendForwardMsg_no_proxy_peers
    validatorAddresses code payload psp (w : World error PV) :
  range_ok rangeProxies →
  send (Some []) validatorAddresses code payload psp w = (None, w).
Proof.
  intros Hrange. rewrite SendForwardMsg_given. simpl.
  assert (rangeProxies ∅ = []) as ->; [| done].
  apply Permutation_nil_r. by rewrite (Hrange ∅), map_to_list_empty.
Qed.

(** *** The addresses of each proxy *)

Lemma assignedTo_cons p (a : common.Address) v l :
  assignedTo p ((a, v) :: l) =
  match v with
  | Some proxy =>
      if decide (peer proxy = Some p) then a :: assignedTo p l
      else assignedTo p l
  | None => assignedTo p l
  end.
Proof.
  unfold assignedTo. simpl. destruct v as [proxy|]; [|done].
  by case_decide.
Qed.

Lemma foldl_assignStep_assignedTo l m p :
  foldl assignStep m l !! p =
  match assignedTo p l with
  | [] => m !! p
  | new => Some (default [] (m !! p) ++ new)
  end.
Proof.
  revert m. induction l as [|[a0 v] l IH]; intros m; [done|].
  change (foldl assignStep m ((a0, v) :: l))
    with (foldl assignStep (assignStep m (a0, v)) l).
  rewrite IH, assignedTo_cons. unfold assignStep.
  destruct v as [proxy|]; [|done].
  destruct (peer proxy) as [q|] eqn:Hpeer.
  - destruct (decide (Some q = Some p)) as [[= ->]|Hne].
    + rewrite lookup_insert_eq. simpl.
      destruct (assignedTo p l); [done|]. by rewrite <- app_assoc.
    + rewrite lookup_insert_ne by congruence. done.
  - rewrite decide_False by done. done.
Qed.

Lemma elem_of_assignedTo p l (a : common.Address) :
  a ∈ assignedTo p l ↔ ∃ proxy, (a, Some proxy) ∈ l ∧ peer proxy = Some p.
Proof.
  unfold assignedTo. rewrite list_elem_of_omap. split.
  - intros ([a' v] & Hin & Hsome). simpl in Hsome.
    destruct v as [proxy|]; [|done]. case_decide; [|done].
    injection Hsome as ->. by exists proxy.
  - intros (proxy & Hin & Hpeer). exists (a, Some proxy).
    split; [done|]. simpl. by rewrite decide_True.
Qed.

Lemma assignedTo_sublist p l : assignedTo p l `sublist_of` l.*1.
Proof.
  induction l as [|[a v] l IH]; [done|].
  rewrite assignedTo_cons. simpl.
  destruct v as [proxy|]; [| by constructor].
  case_decide; by constructor.
Qed.

(** X10.  The map from the proxies to their addresses groups the
    assignments by connected proxy: a proxy is in the map exactly when an
    address resolves to it, and then it has the addresses that resolve to
    it, each of them once.  So no address with a connected proxy is lost,
    and none is sent to two proxies or twice to one. *)
Theorem assignments_grouped
    (valAssignments : gmap common.Address (option proxy)) proxyPeer :
  range_ok rangeAssignments →
  match foldl assignStep ∅ (rangeAssignments valAssignments) !! proxyPeer with
  | Some valAddresses =>
      valAddresses ≠ [] ∧ NoDup valAddresses ∧
      ∀ a, a ∈ valAddresses ↔ resolvesTo valAssignments a proxyPeer
  | None => ∀ a, ¬ resolvesTo valAssignments a proxyPeer
  end.
Proof.
  intros Hrange. rewrite foldl_assignStep_assignedTo, lookup_empty.
  assert (Hin : ∀ a, a ∈ assignedTo proxyPeer (rangeAssignments valAssignments)
                     ↔ resolvesTo valAssignments a proxyPeer).
  { intros a. rewrite elem_of_assignedTo. unfold resolvesTo.
    split; intros (proxy & H1 & H2); exists proxy; (split; [|done]);
      by apply (elem_of_range rangeAssignments). }
  assert (Hnodup : NoDup (assignedTo proxyPeer (rangeAssignments valAssignments))).
  { eapply sublist_NoDup; [| apply assignedTo_sublist].
    rewrite (Hrange valAssignments). apply NoDup_fst_map_to_list. }
  destruct (assignedTo proxyPeer (rangeAssignments valAssignments))
    as [|a0 new] eqn:Hnew.
  - intros a Ha%Hin. by apply elem_of_nil in Ha.
  - simpl. split_and!; done.
Qed.
End ProxiedValidatorEngineCalls.

(** ** The further facts on the deployment with two proxies *)

Lemma SendForwardMsg_assignments_error_witness :
  let result :=
    SendForwardMsg Scenario.FwdMsg Outage.GetValidatorAssignments
      Scenario.backend_Address (Scenario.backend_Unicast [])
      Scenario.EncodeToBytes Scenario.Payload map_to_list map_to_list
      None [Scenario.A] 7 (Some Scenario.P) ∅ Scenario.pv0 in
  result.1 = Some ErrStoppedProxyHandler ∧
  newEvents Scenario.pv0 result.2 = [GetValidatorAssignmentsCall [Scenario.A]] ∧
  backend (engine result.2) = backend (engine Scenario.pv0).
Proof.
  apply (SendForwardMsg_assignments_error Scenario.FwdMsg
           Outage.GetValidatorAssignments Scenario.backend_Address
           (Scenario.backend_Unicast []) Scenario.EncodeToBytes
           Scenario.Payload map_to_list map_to_list
           [Scenario.A] 7 (Some Scenario.P) ∅ Scenario.pv0
           ErrStoppedProxyHandler (ph (engine Scenario.pv0))).
  reflexivity.
Defined.

(** The specific payloads hold nil for [R1]. *)
Lemma SendForwardMsg_no_payload_witness :
  Scenario.R1 ∉
    recipients
      (newEvents Scenario.pv0
         (Scenario.SendForwardMsg [] (Some [Scenario.R1; Scenario.R2]) [] 7
            (Some Scenario.P)
            {[ enode.ID_of (consensus.Node Scenario.R1) := None ]}
            Scenario.pv0).2).
Proof.
  apply (SendForwardMsg_no_payload Scenario.FwdMsg
           Scenario.GetValidatorAssignments Scenario.backend_Address
           (Scenario.backend_Unicast []) Scenario.EncodeToBytes
           Scenario.Payload map_to_list map_to_list).
  vm_compute. reflexivity.
Defined.

(** [R1] is listed twice. *)
Lemma SendForwardMsg_one_transmission_per_proxy_witness :
  NoDup
    (recipients
       (newEvents Scenario.pv0
          (Scenario.SendForwardMsg []
             (Some [Scenario.R1; Scenario.R2; Scenario.R1]) [] 7
             (Some Scenario.P) ∅ Scenario.pv0).2)).
Proof.
  apply (SendForwardMsg_one_transmission_per_proxy Scenario.FwdMsg
           Scenario.GetValidatorAssignments Scenario.backend_Address
           (Scenario.backend_Unicast []) Scenario.EncodeToBytes
           Scenario.Payload map_to_list map_to_list).
  apply range_ok_map_to_list.
Defined.

(** The payload for [R2] is over the limit of the encoder. *)
Lemma SendForwardMsg_error_skips_proxy_witness :
  ∃ proxyPeer valAddresses msg,
    foldl peerStep ∅ [Scenario.R1; Scenario.R2] !! proxyPeer =
      Some valAddresses ∧
    msgToForward (Some [x01])
      {[ enode.ID_of (consensus.Node Scenario.R2) := Some Scenario.P ]}
      proxyPeer = Some msg ∧
    encodingFails Scenario.FwdMsg Outage.EncodeToBytes Scenario.Payload
      {| istanbul.ForwardMessage.Code := 7;
         istanbul.ForwardMessage.DestAddresses := valAddresses;
         istanbul.ForwardMessage.Msg := msg |} "message too large"%string ∧
    proxyPeer ∉
      recipients
        (newEvents Scenario.pv0
           (SendForwardMsg Scenario.FwdMsg Scenario.GetValidatorAssignments
              Scenario.backend_Address (Scenario.backend_Unicast [])
              Outage.EncodeToBytes Scenario.Payload map_to_list map_to_list
              (Some [Scenario.R1; Scenario.R2]) [] 7 (Some [x01])
              {[ enode.ID_of (consensus.Node Scenario.R2) := Some Scenario.P ]}
              Scenario.pv0).2).
Proof.
  apply (SendForwardMsg_error_skips_proxy Scenario.FwdMsg
           Scenario.GetValidatorAssignments Scenario.backend_Address
           (Scenario.backend_Unicast []) Outage.EncodeToBytes
           Scenario.Payload map_to_list map_to_list).
  - apply range_ok_map_to_list.
  - reflexivity.
  - vm_compute. reflexivity.
Defined.

Lemma SendForwardMsg_no_proxy_peers_witness :
  Scenario.SendForwardMsg [] (Some []) [Scenario.A] 7 (Some Scenario.P) ∅
    Scenario.pv0 = (None, Scenario.pv0).
Proof.
  apply (SendForwardMsg_no_proxy_peers Scenario.FwdMsg
           Scenario.GetValidatorAssignments Scenario.backend_Address
           (Scenario.backend_Unicast []) Scenario.EncodeToBytes
           Scenario.Payload map_to_list map_to_list).
  apply range_ok_map_to_list.
Defined.

Lemma assignments_grouped_witness :
  match foldl assignStep ∅ (map_to_list Scenario.assignments_AC) !! Scenario.R1
  with
  | Some valAddresses =>
      valAddresses ≠ [] ∧ NoDup valAddresses ∧
      ∀ a, a ∈ valAddresses ↔ resolvesTo Scenario.assignments_AC a Scenario.R1
  | None => ∀ a, ¬ resolvesTo Scenario.assignments_AC a Scenario.R1
  end.
Proof.
  apply (assignments_grouped map_to_list).
  apply range_ok_map_to_list.
Defined.

(** ** The codec: what is read has been written *)

Section RlpCanonical.
Import rlp.

Lemma fold_be_value (bs : bytes) (acc : N) :
  fold_left (fun acc b => (acc * 256 + Byte.to_N b)%N) bs acc =
  (acc * 256 ^ N.of_nat (length bs) + be_value bs)%N.
Proof.
  unfold be_value. revert acc. induction bs as [|b bs IH]; intros acc.
  - simpl. lia.
  - cbn [fold_left length]. rewrite IH, (IH (0 * 256 + Byte.to_N b)%N).
    rewrite Nat2N.inj_succ, N.pow_succ_r'. lia.
Qed.

Lemma be_value_cons (b : byte) (bs : bytes) :
  be_value (b :: bs) =
  (Byte.to_N b * 256 ^ N.of_nat (length bs) + be_value bs)%N.
Proof.
  unfold be_value at 1. cbn [fold_left]. rewrite fold_be_value. lia.
Qed.

Lemma be_value_lt (bs : bytes) : (be_value bs < 256 ^ N.of_nat (length bs))%N.
Proof.
  induction bs as [|b bs IH]; [ by vm_compute |].
  rewrite be_value_cons. cbn [length].
  rewrite Nat2N.inj_succ, N.pow_succ_r'.
  pose proof (Byte.to_N_bounded b). nia.
Qed.

Lemma be_bytes_be_value (bs : bytes) :
  be_bytes (length bs) (be_value bs) = bs.
Proof.
  induction bs as [|b bs IH] using rev_ind; [done|].
  rewrite length_app, Nat.add_comm. cbn [length Nat.add be_bytes].
  rewrite be_value_snoc.
  pose proof (Byte.to_N_bounded b).
  replace ((be_value bs * 256 + Byte.to_N b) / 256)%N with (be_value bs).
  2:{ apply N.div_unique with (Byte.to_N b); lia. }
  rewrite IH. f_equal. f_equal.
  unfold b8.
  replace ((be_value bs * 256 + Byte.to_N b) mod 256)%N with (Byte.to_N b).
  2:{ apply N.mod_unique with (be_value bs); lia. }
  by rewrite Byte.of_to_N.
Qed.

(** The number of bytes that [putint] takes for a value is the one
    between whose bounds the value lies. *)
Lemma intsize_unique (k : nat) (v : N) :
  (1 ≤ k ≤ 8)%nat →
  (v < 256 ^ N.of_nat k)%N →
  (k = 1%nat ∨ 256 ^ N.of_nat (k - 1) ≤ v)%N →
  intsize v = k.
Proof.
  intros Hk Hub Hlb. unfold intsize.
  destruct k as [|[|[|[|[|[|[|[|[|k]]]]]]]]]; try lia;
    simpl in Hub, Hlb;
    repeat match goal with
           | |- context [N.ltb ?a ?b] => destruct (N.ltb_spec a b)
           end; lia.
Qed.

Lemma readUint_inv (k : nat) (s rest : bytes) (v : N) :
  (1 ≤ k ≤ 8)%nat →
  readUint k s = inr (v, rest) →
  s = putint v ++ rest ∧ intsize v = k ∧ (v < 2 ^ 64)%N.
Proof.
  intros Hk Hread. unfold readUint in Hread.
  destruct k as [|[|k]]; [lia | |].
  - destruct s as [|b s]; [done|]. injection Hread as <- <-.
    pose proof (Byte.to_N_bounded b).
    assert (Hsize : intsize (Byte.to_N b) = 1%nat).
    { apply intsize_unique; [lia | simpl; lia | by left]. }
    split_and!; [| done | lia].
    unfold putint. rewrite Hsize. simpl. by rewrite b8_to_N.
  - destruct (Nat.ltb_spec (length s) (S (S k))) as [|Hlen]; [done|].
    destruct (take (S (S k)) s) as [|b0 buf] eqn:Hbuf; [done|].
    destruct (N.eqb_spec (Byte.to_N b0) 0) as [|Hb0]; [done|].
    injection Hread as <- <-.
    assert (Hbuflen : length (b0 :: buf) = S (S k)).
    { rewrite <- Hbuf, length_take. lia. }
    pose proof (be_value_lt (b0 :: buf)) as Hub. rewrite Hbuflen in Hub.
    pose proof (be_value_cons b0 buf) as Hcons.
    assert (Hlb : (256 ^ N.of_nat (S k) ≤ be_value (b0 :: buf))%N).
    { rewrite Hcons. cbn [length] in Hbuflen.
      replace (length buf) with (S k) by lia.
      assert (0 < 256 ^ N.of_nat (S k))%N by (apply N.neq_0_lt_0; by apply N.pow_nonzero).
      nia. }
    assert (Hsize : intsize (be_value (b0 :: buf)) = S (S k)).
    { apply intsize_unique; [lia | done |]. right.
      by replace (S (S k) - 1)%nat with (S k) by lia. }
    split_and!; [| done |].
    + unfold putint. rewrite Hsize.
      rewrite <- (take_drop (S (S k)) s) at 1. f_equal.
      rewrite Hbuf, <- Hbuflen. symmetry. apply be_bytes_be_value.
    + eapply N.lt_le_trans; [exact Hub|].
      change (2 ^ 64)%N with (256 ^ 8)%N.
      apply N.pow_le_mono_r; lia.
Qed.

Lemma readKind_inv (s rest : bytes) (k : Kind) :
  readKind s = inr (k, rest) →
  s = tagOf k ++ rest ∧
  match k with
  | Byte b => (Byte.to_N b < 0x80)%N
  | String size | List size => (size < 2 ^ 64)%N
  end.
Proof.
  unfold readKind. destruct s as [|b s]; [done|].
  pose proof (Byte.to_N_bounded b) as Hb.
  assert (Hlong : ∀ base size s',
            (base = 0xB7 ∨ base = 0xF7)%N →
            (base < Byte.to_N b ≤ base + 8)%N →
            readUint (N.to_nat (Byte.to_N b - base)) s = inr (size, s') →
            (56 ≤ size)%N →
            b :: s = puthead (base - 0x37) base size ++ s' ∧ (size < 2 ^ 64)%N).
  { intros base size s' Hbase Ht Hread Hcanon.
    apply readUint_inv in Hread as (-> & Hsize & Hlt); [| lia].
    split; [| done]. unfold puthead.
    destruct (N.ltb_spec size 56); [lia|].
    rewrite length_putint, Hsize. simpl. f_equal.
    rewrite <- (b8_to_N b) at 1. f_equal. lia. }
  destruct (N.ltb_spec (Byte.to_N b) 0x80).
  { intros [= <- <-]. done. }
  destruct (N.ltb_spec (Byte.to_N b) 0xB8).
  { intros [= <- <-]. split; [| lia].
    simpl. unfold encodeStringHeader, puthead.
    destruct (N.ltb_spec (Byte.to_N b - 0x80) 56); [| lia].
    simpl. f_equal. rewrite <- (b8_to_N b) at 1. f_equal. lia. }
  destruct (N.ltb_spec (Byte.to_N b) 0xC0).
  { destruct (readUint _ s) as [e|[size s']] eqn:Hread; [done|]. simpl.
    destruct (N.ltb_spec size 56); [done|]. intros [= <- <-].
    by apply (Hlong 0xB7%N); [left | lia | |]. }
  destruct (N.ltb_spec (Byte.to_N b) 0xF8).
  { intros [= <- <-]. split; [| lia].
    simpl. unfold encodeListHeader, puthead.
    destruct (N.ltb_spec (Byte.to_N b - 0xC0) 56); [| lia].
    simpl. f_equal. rewrite <- (b8_to_N b) at 1. f_equal. lia. }
  destruct (readUint _ s) as [e|[size s']] eqn:Hread; [done|]. simpl.
  destruct (N.ltb_spec size 56); [done|]. intros [= <- <-].
  by apply (Hlong 0xF7%N); [right | lia | |].
Qed.

Lemma streamKind_inv (s rest : bytes) (k : Kind) :
  streamKind s = inr (k, rest) →
  s = tagOf k ++ rest ∧
  match k with
  | Byte b => (Byte.to_N b < 0x80)%N
  | String size | List size =>
      (size < 2 ^ 64)%N ∧ (size ≤ N.of_nat (length rest))%N
  end.
Proof.
  unfold streamKind.
  destruct (readKind s) as [e|[k' s']] eqn:Hread; [done|]. simpl.
  apply readKind_inv in Hread as [-> Hk'].
  destruct k' as [b|size|size].
  - by intros [= <- <-].
  - destruct (N.ltb_spec (N.of_nat (length s')) size); [done|].
    by intros [= <- <-].
  - destruct (N.ltb_spec (N.of_nat (length s')) size); [done|].
    by intros [= <- <-].
Qed.

(** The first [size] bytes of a stream that holds them. *)
Lemma take_size (size : N) (s : bytes) :
  (size ≤ N.of_nat (length s))%N →
  N.of_nat (length (take (N.to_nat size) s)) = size.
Proof. intros H. rewrite length_take. lia. Qed.

Lemma string_inv (size : N) (s' b rest : bytes) :
  b = take (N.to_nat size) s' →
  rest = drop (N.to_nat size) s' →
  (size ≤ N.of_nat (length s'))%N →
  (∀ b0, b = [b0] → (128 ≤ Byte.to_N b0)%N) →
  encodeStringHeader size ++ s' = writeBytes b ++ rest.
Proof.
  intros -> -> Hlen Hbig.
  destruct (writeBytes_cases (take (N.to_nat size) s'))
    as [(b0 & Hb & Hlow & _)|[_ ->]].
  - specialize (Hbig b0 Hb). lia.
  - rewrite take_size by done. by rewrite <- app_assoc, take_drop.
Qed.

Lemma streamBytes_inv (s rest : bytes) (b : bytes) :
  streamBytes s = inr (b, rest) → s = writeBytes b ++ rest.
Proof.
  unfold streamBytes.
  destruct (streamKind s) as [e|[k s']] eqn:HK; [done|]. simpl.
  apply streamKind_inv in HK as [-> Hk].
  destruct k as [v|size|size]; [| | done].
  - intros [= <- <-]. simpl.
    destruct (N.leb_spec (Byte.to_N v) 0x7F); [done | lia].
  - destruct Hk as [Hsize Hlen]. cbn [tagOf].
    remember (take (N.to_nat size) s') as b' eqn:Hb'.
    destruct b' as [|b0 [|b1 tl]].
    + intros [= <- <-]. by apply string_inv.
    + destruct (N.ltb_spec (Byte.to_N b0) 128); [done|].
      intros [= <- <-]. apply string_inv; [done..|]. by intros ? [= <-].
    + intros [= <- <-]. by apply string_inv.
Qed.

Lemma decodeString_inv (s rest : bytes) (str : string) :
  decodeString s = inr (str, rest) → s = writeString str ++ rest.
Proof.
  unfold decodeString.
  destruct (streamBytes s) as [e|[b s']] eqn:HB; [done|]. simpl.
  intros [= <- <-]. unfold writeString.
  rewrite list_byte_of_string_of_list_byte. by apply streamBytes_inv.
Qed.

Lemma decodeByteArray_inv (vlen : nat) (s rest : bytes) (b : bytes) :
  decodeByteArray vlen s = inr (b, rest) →
  s = writeBytes b ++ rest ∧ length b = vlen.
Proof.
  unfold decodeByteArray.
  destruct (streamKind s) as [e|[k s']] eqn:HK; [done|]. simpl.
  apply streamKind_inv in HK as [-> Hk].
  destruct k as [v|size|size]; [| | done].
  - destruct (Nat.eqb_spec vlen 0); [done|].
    destruct (Nat.ltb_spec 1 vlen); [done|].
    intros [= <- <-]. split; [| simpl; lia]. simpl.
    destruct (N.leb_spec (Byte.to_N v) 0x7F); [done | lia].
  - destruct Hk as [Hsize Hlen]. cbn [tagOf].
    destruct (N.ltb_spec (N.of_nat vlen) size); [done|].
    destruct (N.ltb_spec size (N.of_nat vlen)); [done|].
    assert (size = N.of_nat vlen) as -> by lia.
    assert (Htake : length (take vlen s') = vlen) by (rewrite length_take; lia).
    remember (take vlen s') as b' eqn:Hb'.
    destruct b' as [|b0 [|b1 tl]].
    + intros [= <- <-]. split; [| done].
      apply string_inv; [by rewrite Nat2N.id.. | done | done].
    + destruct (N.ltb_spec (Byte.to_N b0) 128); [done|].
      intros [= <- <-]. split; [| done].
      apply string_inv; [by rewrite Nat2N.id.. | done |]. by intros ? [= <-].
    + intros [= <- <-]. split; [| done].
      apply string_inv; [by rewrite Nat2N.id.. | done | done].
Qed.

Lemma streamUint_inv (s rest : bytes) (v : N) :
  streamUint 64 s = inr (v, rest) →
  s = writeUint v ++ rest ∧ (v < 2 ^ 64)%N.
Proof.
  unfold streamUint.
  destruct (streamKind s) as [e|[k s']] eqn:HK; [done|]. simpl.
  apply streamKind_inv in HK as [-> Hk].
  destruct k as [b|size|size]; [| | done].
  - destruct (N.eqb_spec (Byte.to_N b) 0); [done|].
    intros [= <- <-]. split; [| lia]. unfold writeUint.
    destruct (N.eqb_spec (Byte.to_N b) 0); [done|].
    destruct (N.ltb_spec (Byte.to_N b) 128); [| lia].
    simpl. by rewrite b8_to_N.
  - destruct Hk as [Hsize Hlen]. change (64 / 8)%N with 8%N.
    destruct (N.ltb_spec 8 size); [done|].
    destruct (N.eqb_spec size 0) as [->|Hsize0].
    { simpl. intros [= <- <-]. done. }
    destruct (readUint (N.to_nat size) s') as [e|[v' s'']] eqn:Hread.
    { by destruct e. }
    apply readUint_inv in Hread as (-> & Hint & Hlt); [| lia].
    destruct (N.ltb_spec 0 size); [| lia]. simpl.
    destruct (N.ltb_spec v' 128); [done|].
    intros [= <- <-]. split; [| done]. unfold writeUint.
    destruct (N.eqb_spec v' 0); [lia|].
    destruct (N.ltb_spec v' 128); [lia|].
    rewrite length_putint, Hint.
    cbn [tagOf]. unfold encodeStringHeader, puthead.
    destruct (N.ltb_spec size 56); [| lia].
    simpl. do 2 f_equal. lia.
Qed.

Lemma streamList_inv (s content after : bytes) :
  streamList s = inr (content, after) →
  s = writeList content ++ after.
Proof.
  unfold streamList.
  destruct (streamKind s) as [e|[k s']] eqn:HK; [done|]. simpl.
  apply streamKind_inv in HK as [-> Hk].
  destruct k as [b|size|size]; [done | done |].
  destruct Hk as [Hsize Hlen]. intros [= <- <-].
  unfold writeList. rewrite take_size by done.
  by rewrite <- app_assoc, take_drop.
Qed.

Lemma field_inv {A} (d : Dec A) (s : Stream) (r : A * Stream) :
  field d s = inr r → d s = inr r.
Proof. unfold field. destruct (d s) as [[]|]; done. Qed.

Lemma streamListEnd_inv (content : Stream) :
  streamListEnd content = inr tt → content = [].
Proof. by destruct content. Qed.

Lemma decode_sharedValidatorEnode_inv (s rest : bytes)
    (sve : sharedValidatorEnode) :
  decode_sharedValidatorEnode s = inr (sve, rest) →
  s = encode_sharedValidatorEnode sve ++ rest ∧ wf_sharedValidatorEnode sve.
Proof.
  unfold decode_sharedValidatorEnode.
  destruct (streamList s) as [e|[content after]] eqn:HL; [done|].
  apply streamList_inv in HL as ->. simpl.
  destruct (field _ content) as [e|[address c1]] eqn:H1; [done|].
  apply field_inv, decodeByteArray_inv in H1 as [-> Haddr]. simpl.
  destruct (field _ c1) as [e|[enodeURL c2]] eqn:H2; [done|].
  apply field_inv, decodeString_inv in H2 as ->. simpl.
  destruct (field _ c2) as [e|[version c3]] eqn:H3; [done|].
  apply field_inv, streamUint_inv in H3 as [-> Hver]. simpl.
  destruct (streamListEnd c3) as [e|[]] eqn:H4; [done|].
  apply streamListEnd_inv in H4 as ->. simpl.
  intros [= <- <-]. split; [| done].
  unfold encode_sharedValidatorEnode. simpl. by rewrite app_nil_r.
Qed.

Lemma decodeSliceElems_inv (rounds : nat) (content : Stream)
    (l : list sharedValidatorEnode) :
  decodeSliceElems decode_sharedValidatorEnode rounds content = inr l →
  content = concat (map encode_sharedValidatorEnode l) ∧
  Forall wf_sharedValidatorEnode l.
Proof.
  revert content l. induction rounds as [|rounds IH]; intros content l.
  { destruct content; [| done]. by intros [= <-]. }
  destruct content as [|b content]; [by intros [= <-]|].
  rewrite decodeSliceElems_cons by done.
  destruct (decode_sharedValidatorEnode (b :: content))
    as [e|[sve content']] eqn:Hsve; [done|].
  apply decode_sharedValidatorEnode_inv in Hsve as [-> Hwf]. simpl.
  destruct (decodeSliceElems _ rounds content') as [e|l'] eqn:Hl'; [done|].
  apply IH in Hl' as [-> Hwf']. simpl. intros [= <-].
  split; [done | by constructor].
Qed.

Lemma decodeListSlice_inv (s rest : bytes) (l : list sharedValidatorEnode) :
  decodeListSlice decode_sharedValidatorEnode s = inr (l, rest) →
  s = encode_ValEnodes l ++ rest ∧ Forall wf_sharedValidatorEnode l.
Proof.
  unfold decodeListSlice.
  destruct (streamList s) as [e|[content after]] eqn:HL; [done|].
  apply streamList_inv in HL as ->. simpl.
  destruct (decodeSliceElems _ _ content) as [e|l'] eqn:Hl'; [done|].
  apply decodeSliceElems_inv in Hl' as [-> Hwf]. simpl.
  by intros [= <- <-].
Qed.

Lemma DecodeRLP_inv (sd0 sd : valEnodesShareData) (s rest : bytes) :
  DecodeRLP sd0 s = inr (sd, rest) →
  s = EncodeRLP sd ++ rest ∧ Forall wf_sharedValidatorEnode (ValEnodes sd).
Proof.
  unfold DecodeRLP.
  destruct (streamList s) as [e|[content after]] eqn:HL; [done|].
  apply streamList_inv in HL as ->. simpl.
  destruct (field _ content) as [e|[l c1]] eqn:H1; [done|].
  apply field_inv, decodeListSlice_inv in H1 as [-> Hwf]. simpl.
  destruct (streamListEnd c1) as [e|[]] eqn:H2; [done|].
  apply streamListEnd_inv in H2 as ->. simpl.
  intros [= <- <-]. split; [| done].
  unfold EncodeRLP. simpl. by rewrite app_nil_r.
Qed.

(** X11.  [DecodeRLP] accepts nothing but what [EncodeRLP] writes: when
    it succeeds, the bytes it consumed are the encoding of the message it
    yields, byte for byte, and the message has addresses of 20 bytes and
    versions that fit a [uint].  So a message has one encoding only. *)
Theorem DecodeRLP_canonical (sd0 sd : valEnodesShareData) (s rest : bytes) :
  DecodeRLP sd0 s = inr (sd, rest) →
  s = EncodeRLP sd ++ rest ∧
  Forall wf_sharedValidatorEnode (ValEnodes sd) ∧
  ∀ s', DecodeRLP sd0 s' = inr (sd, rest) → s' = s.
Proof.
  intros H. destruct (DecodeRLP_inv _ _ _ _ H) as [-> Hwf].
  split_and!; [done..|].
  intros s' H'. by apply DecodeRLP_inv in H' as [-> _].
Qed.

(** X12.  [EncodeRLP] is injective: two messages of the Go type with
    the same encoding are the same message. *)
Theorem EncodeRLP_inj (sd1 sd2 : valEnodesShareData) :
  Forall wf_sharedValidatorEnode (ValEnodes sd1) →
  (N.of_nat (length (EncodeRLP sd1)) < 2 ^ 64)%N →
  Forall wf_sharedValidatorEnode (ValEnodes sd2) →
  EncodeRLP sd1 = EncodeRLP sd2 →
  sd1 = sd2.
Proof.
  intros Hwf1 Hsize1 Hwf2 Heq.
  pose proof (DecodeRLP_EncodeRLP_app sd1 sd1 [] Hwf1 Hsize1) as H1.
  rewrite Heq in Hsize1.
  pose proof (DecodeRLP_EncodeRLP_app sd2 sd1 [] Hwf2 Hsize1) as H2.
  rewrite Heq in H1. congruence.
Qed.

(** X13.  [DecodeRLP] wants a list: on an input that is empty, or whose
    first byte is not the tag of a list, it returns an error. *)
Theorem DecodeRLP_not_a_list (sd0 : valEnodesShareData) (s : bytes) :
  (∀ b, head s = Some b → (Byte.to_N b < 0xC0)%N) →
  ∃ e, DecodeRLP sd0 s = inl e.
Proof.
  intros Hhead.
  destruct (DecodeRLP sd0 s) as [e|[sd rest]] eqn:HD; [by exists e|].
  apply DecodeRLP_inv in HD as [-> _].
  unfold EncodeRLP, writeList, encodeListHeader, puthead in Hhead.
  destruct (N.ltb_spec (N.of_nat (length (encode_ValEnodes (ValEnodes sd)))) 56)
    as [Hs|Hs].
  - specialize (Hhead _ eq_refl). rewrite to_N_b8, N.mod_small in Hhead; lia.
  - specialize (Hhead _ eq_refl). rewrite to_N_b8, length_putint in Hhead.
    assert (1 ≤ intsize (N.of_nat (length (encode_ValEnodes (ValEnodes sd)))) ≤ 8)%nat.
    { unfold intsize. repeat case_match; lia. }
    rewrite N.mod_small in Hhead; lia.
Qed.
End RlpCanonical.

Lemma DecodeRLP_canonical_witness :
  EncodeRLP Scenario.shared ++ [x00] = EncodeRLP Scenario.shared ++ [x00] ∧
  Forall wf_sharedValidatorEnode (ValEnodes Scenario.shared) ∧
  ∀ s',
    DecodeRLP {| ValEnodes := [] |} s' = inr (Scenario.shared, [x00]) →
    s' = EncodeRLP Scenario.shared ++ [x00].
Proof.
  apply (DecodeRLP_canonical {| ValEnodes := [] |} Scenario.shared
           (EncodeRLP Scenario.shared ++ [x00]) [x00]).
  vm_compute. reflexivity.
Defined.

Lemma EncodeRLP_inj_witness : Scenario.shared = Scenario.shared.
Proof.
  apply EncodeRLP_inj.
  - repeat constructor; vm_compute; reflexivity.
  - vm_compute. reflexivity.
  - repeat constructor; vm_compute; reflexivity.
  - reflexivity.
Defined.

Lemma DecodeRLP_not_a_list_witness :
  ∃ e, DecodeRLP {| ValEnodes := [] |} (rlp.writeString "dog") = inl e.
Proof.
  apply DecodeRLP_not_a_list.
  intros b [= <-]. vm_compute. reflexivity.
Defined.

(** ** The messages as text *)

Section StringProperties.
Variable Hex : common.Address → string.

Lemma append_assoc (a b c : string) :
  ((a ++ b) ++ c = a ++ (b ++ c))%string.
Proof.
  induction a as [|x a IH]; [done|].
  change (String x ((a ++ b) ++ c) = String x (a ++ (b ++ c)))%string.
  by f_equal.
Qed.

Lemma fold_left_String (l : list sharedValidatorEnode) (acc tail : string) :
  (fold_left
     (fun outputStr valEnode =>
        outputStr ++ " " ++ sharedValidatorEnode_String Hex valEnode)
     l acc ++ tail)%string =
  (acc ++
   fold_right
     (fun valEnode rest => " " ++ sharedValidatorEnode_String Hex valEnode ++ rest)
     tail l)%string.
Proof.
  revert acc. induction l as [|sve l IH]; intros acc; [done|].
  cbn [fold_left fold_right]. rewrite IH.
  by rewrite !append_assoc.
Qed.

(** X14.  The text of an enode share message is the opening
    [{ValEnodes:], then the text of each record, in the order of the
    list and each after one space, then the closing brace; for a message
    without records it is [{ValEnodes:}]. *)
Theorem valEnodesShareData_String_spec (sd : valEnodesShareData) :
  valEnodesShareData_String Hex sd =
  ("{ValEnodes:" ++
   fold_right
     (fun valEnode rest => " " ++ sharedValidatorEnode_String Hex valEnode ++ rest)
     "}" (ValEnodes sd))%string.
Proof. unfold valEnodesShareData_String. apply fold_left_String. Qed.

End StringProperties.

Example valEnodesShareData_String_empty (Hex : common.Address → string) :
  valEnodesShareData_String Hex {| ValEnodes := [] |} = "{ValEnodes:}"%string.
Proof. reflexivity. Qed.

Example sharedValidatorEnode_String_version :
  sharedValidatorEnode_String (fun _ => "0x0A"%string)
    {| Address := Scenario.A; EnodeURL := "enode://0a0a@10.0.0.1:30303";
       Version := 1024 |} =
  "{Address: 0x0A, EnodeURL: enode://0a0a@10.0.0.1:30303, Version: 1024}"%string.
Proof. reflexivity. Qed.

(** ** The sending side: delivery *)

Section ProxiedValidatorEngineDelivery.
Context {error : Type} {ProxyHandler Backend : Type}.
Variable FwdMsg : N.
Variable GetValidatorAssignments :
  list common.Address → ProxyHandler →
  (error + gmap common.Address (option proxy)) * ProxyHandler.
Variable backend_Address : Backend → common.Address.
Variable backend_Unicast :
  consensus.Peer → bytes → N → Backend → option error * Backend.
Variable EncodeToBytes : istanbul.ForwardMessage.t → error + bytes.
Variable Payload : istanbul.Message.t → error + bytes.
Variable rangeAssignments :
  gmap common.Address (option proxy) → list (common.Address * option proxy).
Variable rangeProxies :
  gmap consensus.Peer (list common.Address) →
  list (consensus.Peer * list common.Address).

Local Abbreviation PV := (proxiedValidatorEngine ProxyHandler Backend).
Local Abbreviation send :=
  (SendForwardMsg FwdMsg GetValidatorAssignments backend_Address
     backend_Unicast EncodeToBytes Payload rangeAssignments rangeProxies).
Local Abbreviation loop :=
  (sendLoop FwdMsg backend_Address backend_Unicast EncodeToBytes Payload).
Local Abbreviation carries := (carries FwdMsg EncodeToBytes Payload).

(** When the encoders do not fail, every entry with a payload has its
    forward message among the transmissions of the loop. *)
Lemma sendLoop_delivers code payload psp es (w : World error PV)
    p addrs msg :
  (∀ m, ∃ b, EncodeToBytes m = inr b) →
  (∀ m, ∃ b, Payload m = inr b) →
  (p, addrs) ∈ es →
  msgToForward payload psp p = Some msg →
  ∃ ev,
    ev ∈ newEvents w (loop code payload psp es w).2 ∧
    carries ev p
      {| istanbul.ForwardMessage.Code := code;
         istanbul.ForwardMessage.DestAddresses := addrs;
         istanbul.ForwardMessage.Msg := msg |}.
Proof.
  intros Henc Hpay. revert w.
  induction es as [|[p' addrs'] rest IH]; intros w Hin Hmsg.
  { by apply elem_of_nil in Hin. }
  simpl.
  destruct (msgToForward payload psp p') as [msg'|] eqn:Hmsg'.
  - match goal with
    | |- context [EncodeToBytes ?m] =>
        destruct (Henc m) as [fwdMsgBytes Hb]; rewrite Hb
    end.
    match goal with
    | |- context [Payload ?m] =>
        destruct (Hpay m) as [fwdMsgPayload Hp]; rewrite Hp
    end.
    unfold bind, Unicast, call.
    destruct (backend_Unicast _ _ _ _) as [outcome b'].
    match goal with
    | |- context [loop _ _ _ rest ?w1] =>
        destruct (sendLoop_sound FwdMsg backend_Address backend_Unicast
                    EncodeToBytes Payload code payload psp rest w1)
          as (evs & Htrace & _ & _);
        pose proof (IH w1) as IHw1
    end.
    rewrite (newEvents_app w _
               (UnicastCall p' fwdMsgPayload FwdMsg outcome :: evs))
      by (rewrite Htrace; simpl; by rewrite <- app_assoc).
    rewrite (newEvents_app _ _ evs Htrace) in IHw1.
    apply elem_of_cons in Hin as [[= -> ->]|Hin].
    + eexists. split; [by left|].
      rewrite Hmsg in Hmsg'. injection Hmsg' as <-.
      by eexists _, _, _, _.
    + destruct (IHw1 Hin Hmsg) as (ev & Hev & Hcarries).
      exists ev. split; [by right | done].
  - apply elem_of_cons in Hin as [[= -> ->]|Hin]; [congruence|].
    by apply IH.
Qed.

(** X15.  Delivery: with nil proxy peers, the assignments retrieved and
    encoders that do not fail, every address that resolves to a connected
    proxy with a payload is among the destination addresses of a forward
    message, with that payload and the code of the call, that is
    transmitted to the proxy. *)
Theorem SendForwardMsg_delivers
    validatorAddresses code payload psp (w : World error PV)
    valAssignments ph' a proxyPeer msg :
  range_ok rangeAssignments →
  range_ok rangeProxies →
  (∀ m, ∃ b, EncodeToBytes m = inr b) →
  (∀ m, ∃ b, Payload m = inr b) →
  GetValidatorAssignments validatorAddresses (ph (engine w)) =
    (inr valAssignments, ph') →
  resolvesTo valAssignments a proxyPeer →
  msgToForward payload psp proxyPeer = Some msg →
  ∃ ev valAddresses,
    ev ∈ newEvents w (send None validatorAddresses code payload psp w).2 ∧
    a ∈ valAddresses ∧
    carries ev proxyPeer
      {| istanbul.ForwardMessage.Code := code;
         istanbul.ForwardMessage.DestAddresses := valAddresses;
         istanbul.ForwardMessage.Msg := msg |}.
Proof.
  intros HrangeA HrangeP Henc Hpay HG (proxy & Hva & Hpeer) Hmsg.
  rewrite (SendForwardMsg_assigned _ _ _ _ _ _ _ _ _ _ _ _ _ _ _ HG). cbv zeta.
  set (l := rangeAssignments valAssignments).
  assert (Ha : a ∈ assignedTo proxyPeer l).
  { apply elem_of_assignedTo. exists proxy. split; [| done].
    by apply (elem_of_range rangeAssignments). }
  assert (Hm : foldl assignStep ∅ l !! proxyPeer = Some (assignedTo proxyPeer l)).
  { rewrite foldl_assignStep_assignedTo, lookup_empty.
    destruct (assignedTo proxyPeer l); [by apply elem_of_nil in Ha | done]. }
  case_decide as Hsize.
  { apply map_size_empty_iff in Hsize. rewrite Hsize in Hm.
    by rewrite lookup_empty in Hm. }
  match goal with
  | |- context [loop _ _ _ ?es ?w1] =>
      destruct (sendLoop_delivers code payload psp es w1 proxyPeer
                  (assignedTo proxyPeer l) msg Henc Hpay)
        as (ev & Hev & Hcarries); [by apply elem_of_range | done |];
      destruct (sendLoop_sound FwdMsg backend_Address backend_Unicast
                  EncodeToBytes Payload code payload psp es w1)
        as (evs & Htrace & _ & _)
  end.
  exists ev, (assignedTo proxyPeer l). split_and!; [| done | done].
  rewrite (newEvents_app _ _ evs Htrace) in Hev.
  rewrite (newEvents_app w _ (GetValidatorAssignmentsCall validatorAddresses :: evs)).
  - by right.
  - rewrite Htrace. simpl. by rewrite <- app_assoc.
Qed.
End ProxiedValidatorEngineDelivery.

Lemma SendForwardMsg_delivers_witness :
  ∃ ev valAddresses,
    ev ∈ newEvents Scenario.pv0
           (Scenario.SendForwardMsg [] None [Scenario.A; Scenario.C] 7
              (Some Scenario.P) ∅ Scenario.pv0).2 ∧
    Scenario.A ∈ valAddresses ∧
    carries Scenario.FwdMsg Scenario.EncodeToBytes Scenario.Payload
      ev Scenario.R1
      {| istanbul.ForwardMessage.Code := 7;
         istanbul.ForwardMessage.DestAddresses := valAddresses;
         istanbul.ForwardMessage.Msg := Scenario.P |}.
Proof.
  apply (SendForwardMsg_delivers Scenario.FwdMsg
           Scenario.GetValidatorAssignments Scenario.backend_Address
           (Scenario.backend_Unicast []) Scenario.EncodeToBytes
           Scenario.Payload map_to_list map_to_list
           [Scenario.A; Scenario.C] 7 (Some Scenario.P) ∅ Scenario.pv0
           Scenario.assignments_AC (ph (engine Scenario.pv0))).
  - apply range_ok_map_to_list.
  - apply range_ok_map_to_list.
  - apply encoders_total.
  - apply encoders_total.
  - reflexivity.
  - exists Scenario.proxy1. split; [vm_compute; reflexivity | reflexivity].
  - reflexivity.
Defined.
